(** * Gee-nomics: a shallow embedding of the genome matcher

    The development follows the three components of the program:
    - [Genome]         (Genome.cpp):        a named DNA sequence with [extract];
    - [Trie]           (Trie.h):            the 256-ary trie and its two-mode [find];
    - [GenomeMatcher]  (GenomeMatcher.cpp): the library, its index, and the two
                                            queries built on them.

    Conventions.
    - A C++ [std::string] holding bases or a trie key is a [list ascii]; a genome
      name is a [string].
    - A C++ [int] is a [Z].  The source never checks for signed overflow and
      returns string sizes as [int], so it already assumes that every size fits
      an [int]; the arithmetic below is the mathematical one.  What is modelled
      explicitly is the implicit conversion of an [int] to [size_t] wherever
      the source compares an [int] with a size or passes one as a count,
      because it changes the outcome for negative values.
    - A [char] that indexes the child array of a trie node, or is compared
      with an [int], is converted to [int].  Plain [char] is signed where
      the program is built (x86-64), so the characters of code 128 .. 255
      have the values -128 .. -1; the letters of a DNA sequence all lie
      below 128 and index the array by their code.
    - An output parameter ([string&], [vector<...>&]) becomes an argument
      holding the caller's value and a component of the result. *)

From Stdlib Require Import ZArith QArith Qcanon Ascii String List Lia.
From Stdlib Require SpecFloat.
From stdpp Require Import base option list gmap strings numbers sorting.

Local Open Scope Z_scope.
Set Warnings "-register-all".

(** ** C++ strings and integer conversions *)

Abbreviation str := (list ascii).

(** String literals for sequences and keys. *)
Notation "'$' s" := (list_ascii_of_string s) (at level 1, format "'$' s").

(** [s.size()], as a non-negative integer. *)
Definition size {A} (s : list A) : Z := Z.of_nat (length s).

(** The value of an [int] after conversion to the 64-bit [size_t]. *)
Definition size_t_of_int (z : Z) : Z := if z <? 0 then z + 2 ^ 64 else z.

(** The value of a plain [char] after conversion to [int]: the code of the
    character when it is below 128, the code minus 256 otherwise. *)
Definition int_of_char (c : ascii) : Z :=
  let code := Z.of_nat (nat_of_ascii c) in
  if code <? 128 then code else code - 256.

(** [s.substr(pos, count)]: the characters from [pos], at most [count] of
    them.  The source only calls it with [pos <= s.size()] (otherwise C++
    throws). *)
Definition substr (s : str) (pos count : Z) : str :=
  take (Z.to_nat (Z.min count (size s - pos))) (drop (Z.to_nat pos) s).

(** [toupper] of the C library on the ASCII range. *)
Definition toupper (c : ascii) : ascii :=
  let n := nat_of_ascii c in
  if ((97 <=? n) && (n <=? 122))%nat then ascii_of_nat (n - 32) else c.

Definition is_upper (c : ascii) : Prop := toupper c = c.

(** The segment [s[pos .. pos+len)] of a sequence, for [0 <= pos] and
    [0 <= len]: the notion the specification uses for substrings. *)
Definition segment (s : str) (pos len : Z) : str :=
  take (Z.to_nat len) (drop (Z.to_nat pos) s).

(** ** C++ doubles

    A finite [double] is the rational number it denotes, and an operation
    on doubles is the exact operation followed by the rounding of IEEE 754
    binary64, to the nearest double with ties to the even significand.
    The doubles are the numbers [m * 2^e] with [|m| < 2^53] and
    [-1074 <= e]; they are multiples of [2^-1074], and the rounding is
    computed in that unit.  Overflow to infinity, beyond [2^1024], does not
    arise from the values the program computes (an [int] divided by a
    non-zero [int], times 100) and is not modelled. *)

(** The integer nearest to [n / d], for [0 < d]; a tie goes to the even
    one. *)
Definition round_half_even (n d : Z) : Z :=
  let f := n / d in
  let r := n mod d in
  if 2 * r <? d then f
  else if d <? 2 * r then f + 1
  else if Z.even f then f else f + 1.

(** The double nearest to [a / b] units of [2^-1074], in these units, for
    [0 <= a] and [0 < b].  The last place of the result is [2^e] units
    with [e] chosen so that the significand has 53 bits, or is [e = 0] in
    the subnormal range. *)
Definition round_units (a b : Z) : Z :=
  let e := Z.max (Z.log2 (a / b) - 52) 0 in
  round_half_even a (b * 2 ^ e) * 2 ^ e.

(** The double nearest to the rational [q]. *)
Definition round64 (q : Qc) : Qc :=
  let a := Qnum q * 2 ^ 1074 in
  let b := Z.pos (Qden q) in
  Q2Qc (Qmake (if 0 <=? a then round_units a b else - round_units (- a) b)
              (2 ^ 1074)%positive).

(** [x / y] and [x * y] on doubles. *)
Definition double_div (x y : Qc) : Qc := round64 (x / y).

Definition double_mul (x y : Qc) : Qc := round64 (x * y).

(** ** Genome.cpp *)

Module Genome.

Record GenomeImpl := Genome { m_name : string; m_sequence : str }.

Definition length (g : GenomeImpl) : Z := size (m_sequence g).

Definition name (g : GenomeImpl) : string := m_name g.

(** [extract(position, length, fragment)]: [None] is the [false] return,
    which leaves [fragment] untouched; [Some s] is the [true] return with
    [fragment = s]. *)
Definition extract (g : GenomeImpl) (position length : Z) : option str :=
  if (position <? 0) || (size (m_sequence g) <=? size_t_of_int position) then None
  else if size (m_sequence g) <? size_t_of_int (position + length) then None
  else Some (substr (m_sequence g) position (size_t_of_int length)).

(** The call pattern of the matcher: [string s = "error"; g.extract(p, n, s);]
    after which [s] is tested against the sentinel. *)
Definition error : str := $"error".

Definition extract_or_error (g : GenomeImpl) (position length : Z) : str :=
  match extract g position length with
  | Some s => s
  | None => error
  end.

End Genome.

Export Genome(GenomeImpl, Genome, m_name, m_sequence).

(** ** Trie.h *)

Module Trie.
Section Trie.
Context {ValueType : Type}.

(** "Assume that characters are 1 byte and can be converted to
    integers": the number of slots of a node's child array. *)
Definition POSSIBLE_CHARACTERS : Z := 256.

(** A node: the values present in it and the children.  [m_children] is
    the function from an index to the child found there, [None] for
    [nullptr].  The array [Node* m_children[POSSIBLE_CHARACTERS]] has the
    slots 0 .. 255, all set to [nullptr] by [Node()].  The source indexes it
    with a [char]: for a character of code 128 or more the index is
    negative and lies outside the array, where the C++ is undefined; the
    model keeps what the source writes at such an index under that index,
    apart from the 256 slots of the array. *)
Inductive Node : Type :=
  mkNode { m_values : list ValueType; m_children : Z -> option Node }.

(** [new Node()]: no value, every slot [nullptr]. *)
Definition newNode : Node := mkNode [] (fun _ => None).

Record Trie : Type := mkTrie { m_root : Node }.

(** The constructor; also the state after [reset()]. *)
Definition empty : Trie := mkTrie newNode.

Definition reset (_ : Trie) : Trie := empty.

(** The loop of [insert], from the node [curNode] on: each iteration
    fills the slot of the first character if it is [nullptr], moves into
    it and drops that character; at the empty sequence the value is
    pushed at the back of the node's values.  The source updates the
    nodes in place; here the path is rebuilt. *)
Fixpoint insertFrom (sequence : str) (value : ValueType) (curNode : Node) : Node :=
  match sequence with
  | [] => mkNode (m_values curNode ++ [value]) (m_children curNode)
  | firstChar :: rest =>
      let c := int_of_char firstChar in
      let child := match m_children curNode c with
                   | None => newNode
                   | Some n => n
                   end in
      mkNode (m_values curNode)
             (fun i => if i =? c then Some (insertFrom rest value child)
                       else m_children curNode i)
  end.

Definition insert (key : str) (value : ValueType) (t : Trie) : Trie :=
  mkTrie (insertFrom key value (m_root t)).

(** [findHelper(key, exactMatchOnly, t, v)]: the result is what the call
    appends to [v].  The loop [for (int i = 0; i < POSSIBLE_CHARACTERS; i++)]
    reads the slots 0 .. 255 and compares [i] with the [int] value of
    [firstChar]. *)
Fixpoint findHelper (key : str) (exactMatchOnly : bool) (t : option Node)
  {struct key} : list ValueType :=
  match t with
  | None => []
  | Some n =>
      match key with
      | [] => m_values n
      | firstChar :: rest =>
          let c := int_of_char firstChar in
          if exactMatchOnly then findHelper rest true (m_children n c)
          else
            findHelper rest false (m_children n c)
            ++ flat_map (fun i => if i =? c then []
                                  else findHelper rest true (m_children n i))
                        (seqZ 0 POSSIBLE_CHARACTERS)
      end
  end.

Definition find (key : str) (exactMatchOnly : bool) (t : Trie) : list ValueType :=
  match key with
  | [] => m_values (m_root t)
  | firstChar :: rest =>
      match m_children (m_root t) (int_of_char firstChar) with
      | None => []
      | Some child => findHelper rest exactMatchOnly (Some child)
      end
  end.

End Trie.
Arguments Node : clear implicits.
Arguments Trie : clear implicits.
End Trie.

(** ** provided.h: the result records *)

Module DNAMatch.
(** Modelled from the spec: the struct [DNAMatch] of provided.h, a header
    that is not among the sources.  The specification gives it as
    [(genomeName, length, position)], the fields the matcher assigns. *)
Record t := mk { genomeName : string; length : Z; position : Z }.
End DNAMatch.

Module GenomeMatch.
(** Modelled from the spec: the struct [GenomeMatch] of provided.h, given
    by the specification as [(genomeName, percentMatch)].  The [double]
    [percentMatch] is the rational number it denotes. *)
Record t := mk { genomeName : string; percentMatch : Qc }.
End GenomeMatch.

(** ** GenomeMatcher.cpp *)

Module GenomeMatcher.

Record GenomeMatcherImpl := mkImpl {
  m_minSearchLength : Z;
  m_genomeLibrary : list GenomeImpl;
  m_sequencedDNA : Trie.Trie (Z * Z)
}.

(** The constructor. *)
Definition new (minSearchLength : Z) : GenomeMatcherImpl :=
  mkImpl minSearchLength [] Trie.empty.

Definition minimumSearchLength (m : GenomeMatcherImpl) : Z := m_minSearchLength m.

(** The loop [for (int i = 0; ; i++)] of [addGenome], from index [i] on.
    It has no bound of its own and stops at the first failed extraction;
    [fuel] bounds the iterations the model performs (see
    [addGenome_loop_fuel]: the length of the sequence plus one is always
    enough). *)
Fixpoint addGenome_loop (fuel : nat) (genome : GenomeImpl) (k gid i : Z)
    (trie : Trie.Trie (Z * Z)) : Trie.Trie (Z * Z) :=
  match fuel with
  | O => trie
  | S fuel' =>
      let substring := Genome.extract_or_error genome i k in
      if decide (substring = Genome.error) then trie
      else addGenome_loop fuel' genome k gid (i + 1)
             (Trie.insert substring (gid, i) trie)
  end.

Definition addGenome (genome : GenomeImpl) (m : GenomeMatcherImpl) : GenomeMatcherImpl :=
  let library := m_genomeLibrary m ++ [genome] in
  mkImpl (m_minSearchLength m) library
    (addGenome_loop (S (List.length (m_sequence genome))) genome
       (m_minSearchLength m) (size library) 0 (m_sequencedDNA m)).

(** [s[i]] and [s.at(i)] for an index that is in range wherever the
    source reads it. *)
Definition char_at (s : str) (i : Z) : option ascii := s !! Z.to_nat i.

(** The loop [for ( ; actualLength <= fragment.size(); actualLength++)]
    that grows one seed; the result is [actualLength] on exit. *)
Fixpoint grow (fuel : nat) (genome : GenomeImpl) (fragment : str)
    (currentPosition : Z) (snipped : bool) (actualLength : Z) : Z :=
  match fuel with
  | O => actualLength
  | S fuel' =>
      if size_t_of_int actualLength <=? size fragment then
        let substring := Genome.extract_or_error genome currentPosition actualLength in
        if decide (substring = Genome.error) then actualLength
        else if decide (substring = substr fragment 0 (size_t_of_int actualLength)) then
          if size_t_of_int actualLength =? size fragment then actualLength
          else grow fuel' genome fragment currentPosition snipped (actualLength + 1)
        else if negb snipped then
          if size substring =? size fragment then actualLength
          else grow fuel' genome fragment currentPosition true (actualLength + 1)
        else if decide (char_at substring (actualLength - 1)
                        <> char_at fragment (actualLength - 1)) then actualLength - 1
        else if size substring =? size fragment then actualLength
        else grow fuel' genome fragment currentPosition snipped (actualLength + 1)
      else actualLength
  end.

(** The length the source reaches for one seed.  At most
    [fragment.size() + 1] iterations are possible. *)
Definition actualLength_of (k : Z) (genome : GenomeImpl) (fragment : str)
    (exactMatchOnly : bool) (currentPosition : Z) : Z :=
  grow (S (List.length fragment)) genome fragment currentPosition exactMatchOnly k.

(** The update of the [unordered_map<int, DNAMatch> match] with a
    candidate [d] for [currentGenome]. *)
Definition keep_best (currentGenome : Z) (d : DNAMatch.t)
    (best : gmap Z DNAMatch.t) : gmap Z DNAMatch.t :=
  match best !! currentGenome with
  | Some old =>
      if DNAMatch.length old <? DNAMatch.length d then <[currentGenome := d]> best
      else best
  | None => <[currentGenome := d]> best
  end.

(** One iteration of the loop over [matchLocations].  The trie of a
    matcher only holds the ids [addGenome] gave out (see [seeds_in_library]),
    so [m_genomeLibrary[currentGenome - 1]] is within the library; the
    model leaves [best] unchanged for an index outside of it, where the
    C++ is undefined. *)
Definition visit_seed (m : GenomeMatcherImpl) (fragment : str) (minimumLength : Z)
    (exactMatchOnly : bool) (best : gmap Z DNAMatch.t) (seed : Z * Z)
    : gmap Z DNAMatch.t :=
  let currentGenome := seed.1 in
  let currentPosition := seed.2 in
  match m_genomeLibrary m !! Z.to_nat (currentGenome - 1) with
  | None => best
  | Some genome =>
      let actualLength :=
        actualLength_of (m_minSearchLength m) genome fragment exactMatchOnly
          currentPosition in
      if actualLength <? minimumLength then best
      else keep_best currentGenome
             (DNAMatch.mk (Genome.name genome) actualLength currentPosition) best
  end.

(** The map [match] after the loop over all seeds. *)
Definition best_matches (m : GenomeMatcherImpl) (fragment : str) (minimumLength : Z)
    (exactMatchOnly : bool) (matchLocations : list (Z * Z)) : gmap Z DNAMatch.t :=
  fold_left (visit_seed m fragment minimumLength exactMatchOnly) matchLocations ∅.

(** [findGenomesWithThisDNA]: [matches] is the caller's vector, the result
    is the returned flag and the vector after the call.  The iteration
    order of an [unordered_map] is unspecified; the model takes the order
    of [map_to_list] and no statement below depends on it. *)
Definition findGenomesWithThisDNA (m : GenomeMatcherImpl) (fragment : str)
    (minimumLength : Z) (exactMatchOnly : bool) (matches : list DNAMatch.t)
    : bool * list DNAMatch.t :=
  if size fragment <? size_t_of_int minimumLength then (false, matches)
  else if minimumLength <? m_minSearchLength m then (false, matches)
  else
    let fragSearchKey := substr fragment 0 (size_t_of_int (m_minSearchLength m)) in
    let matchLocations := Trie.find fragSearchKey exactMatchOnly (m_sequencedDNA m) in
    if size matchLocations =? 0 then (false, [])
    else
      let best := best_matches m fragment minimumLength exactMatchOnly matchLocations in
      let matches' := (map_to_list best).*2 in
      if size matches' =? 0 then (false, matches') else (true, matches').

(** [genomeMatches[d.genomeName]++] *)
Definition count_match (genomeMatches : gmap string Z) (d : DNAMatch.t)
    : gmap string Z :=
  <[DNAMatch.genomeName d :=
      default 0 (genomeMatches !! DNAMatch.genomeName d) + 1]> genomeMatches.

(** The loop [for (int i = 0; i < numSequences; i++)] over the windows of
    the query, with [n] iterations left.  Each window is searched with a
    fresh, empty [matches] vector. *)
Fixpoint count_windows (n : nat) (m : GenomeMatcherImpl) (query : GenomeImpl)
    (fragmentMatchLength : Z) (exactMatchOnly : bool) (i : Z)
    (genomeMatches : gmap string Z) : gmap string Z :=
  match n with
  | O => genomeMatches
  | S n' =>
      let sequence :=
        Genome.extract_or_error query (i * fragmentMatchLength) fragmentMatchLength in
      if decide (sequence = Genome.error) then genomeMatches
      else
        let matches :=
          (findGenomesWithThisDNA m sequence fragmentMatchLength exactMatchOnly []).2 in
        count_windows n' m query fragmentMatchLength exactMatchOnly (i + 1)
          (fold_left count_match matches genomeMatches)
  end.

(** [(genomeMatches[name] / static_cast<double>(numSequences)) * 100]: a
    division and a multiplication of doubles, each rounded.  The counter
    and [numSequences] are [int]s and 100 is a literal: their conversion
    to [double] is exact.  Reading [genomeMatches[name]] for a name that
    is not a key yields 0. *)
Definition percent (genomeMatches : gmap string Z) (name : string)
    (numSequences : Z) : Qc :=
  double_mul
    (double_div (Qc_of_Z (default 0%Z (genomeMatches !! name))) (Qc_of_Z numSequences))
    (Qc_of_Z 100%Z).

Definition genomeMatchCompare (a b : GenomeMatch.t) : bool :=
  if decide (GenomeMatch.percentMatch b < GenomeMatch.percentMatch a)%Qc then true
  else if decide (GenomeMatch.percentMatch a < GenomeMatch.percentMatch b)%Qc then false
  else String.ltb (GenomeMatch.genomeName a) (GenomeMatch.genomeName b).

Definition genomeMatchBefore (a b : GenomeMatch.t) : Prop :=
  genomeMatchCompare a b = true.

#[global] Instance genomeMatchBefore_dec a b : Decision (genomeMatchBefore a b).
Proof. unfold genomeMatchBefore. apply _. Defined.

(** The loop over the library that fills [results]. *)
Definition related (library : list GenomeImpl) (genomeMatches : gmap string Z)
    (numSequences : Z) (matchPercentThreshold : Qc) : list GenomeMatch.t :=
  flat_map
    (fun cur =>
       let p := percent genomeMatches (Genome.name cur) numSequences in
       if decide (matchPercentThreshold < p)%Qc
       then [GenomeMatch.mk (Genome.name cur) p] else [])
    library.

(** [findRelatedGenomes]: [results] is the caller's vector.  The result is
    [None] where the C++ divides by zero ([fragmentMatchLength = 0], which
    passes the first test only for a matcher built with a minimum search
    length below 1).  [std::sort] is modelled by a merge sort. *)
Definition findRelatedGenomes (m : GenomeMatcherImpl) (query : GenomeImpl)
    (fragmentMatchLength : Z) (exactMatchOnly : bool) (matchPercentThreshold : Qc)
    (results : list GenomeMatch.t) : option (bool * list GenomeMatch.t) :=
  if fragmentMatchLength <? m_minSearchLength m then Some (false, results)
  else if fragmentMatchLength =? 0 then None
  else
    let numSequences := Genome.length query `quot` fragmentMatchLength in
    if numSequences =? 0 then Some (false, [])
    else
      let genomeMatches :=
        count_windows (Z.to_nat numSequences) m query fragmentMatchLength
          exactMatchOnly 0 ∅ in
      let results' :=
        related (m_genomeLibrary m) genomeMatches numSequences matchPercentThreshold in
      if size results' =? 0 then Some (false, results')
      else Some (true, merge_sort genomeMatchBefore results').

End GenomeMatcher.

(** ** Genome.cpp: the loader

    [GenomeImpl::load] reads an [istream].  The stream is the list of the
    characters still to be read: every read that the loader performs
    ([getline], [get], [peek]) fails or reports end of file exactly when
    that list is empty, so the state flags of the stream need no model of
    their own. *)

Module Load.

Definition newline : ascii := "010"%char.

(** [getline(genomeSource, line)] on a stream that is not at its end: the
    characters up to the first newline, which is consumed and dropped, or
    up to the end of the stream. *)
Fixpoint getline (source : str) : str * str :=
  match source with
  | [] => ([], [])
  | c :: rest =>
      if decide (c = newline) then ([], rest)
      else let (line, rest') := getline rest in (c :: line, rest')
  end.

(** The test [base != 'A' && base != 'C' && base != 'G' && base != 'T' &&
    base != 'N'], negated. *)
Definition is_ACGTN (base : ascii) : bool :=
  bool_decide (base = "A"%char) || bool_decide (base = "C"%char)
  || bool_decide (base = "G"%char) || bool_decide (base = "T"%char)
  || bool_decide (base = "N"%char).

(** The loop [while (genomeSource.get(base))] that collects the bases of
    one record into [sequence].  [None] is a [return false] from inside the
    loop; [Some (sequence, rest)] is the exit of the loop, by the [break]
    or by the end of the stream, with the stream at [rest]. *)
Fixpoint read_bases (source : str) (sequence : str) : option (str * str) :=
  match source with
  | [] => Some (sequence, [])
  | base :: rest =>
      if decide (head rest = Some ">"%char) then Some (sequence, rest)
      else
        let base := toupper base in
        if decide (base = newline) then
          if decide (head rest = Some newline) then None
          else read_bases rest sequence
        else if is_ACGTN base then read_bases rest (sequence ++ [base])
        else None
  end.

(** The loop [while (getline(genomeSource, line))], one record per
    iteration.  Every iteration consumes at least one character; [fuel]
    bounds the iterations of the model (see [load_loop_fuel]). *)
Fixpoint load_loop (fuel : nat) (source : str) (genomes : list GenomeImpl)
    : bool * list GenomeImpl :=
  match fuel with
  | O => (true, genomes)
  | S fuel' =>
      match source with
      | [] => (true, genomes)
      | _ :: _ =>
          let (line, rest) := getline source in
          match line with
          | [] => (false, genomes)
          | first :: name =>
              if decide (first <> ">"%char) then (false, genomes)
              else if decide (name = []) then (false, genomes)
              else if decide (head rest = Some newline) then (false, genomes)
              else
                match read_bases rest [] with
                | None => (false, genomes)
                | Some (sequence, rest') =>
                    if decide (sequence = []) then (false, genomes)
                    else load_loop fuel' rest'
                           (genomes ++ [Genome (string_of_list_ascii name) sequence])
                end
          end
      end
  end.

(** [load(genomeSource, genomes)]: the vector is cleared first, so what
    the caller passed in does not matter; the result is the returned flag
    and the vector after the call. *)
Definition load (genomeSource : str) : bool * list GenomeImpl :=
  load_loop (S (length genomeSource)) genomeSource [].

End Load.

(** ** Vocabulary of the statements *)

(** [position] and [length] denote a window inside the sequence of [g],
    starting at one of its bases. *)
Definition in_range (g : GenomeImpl) (position length : Z) : Prop :=
  0 <= position < Genome.length g /\ position + length <= Genome.length g.

(** A character of the 7-bit range, the codes 0 .. 127: its value as a
    plain [char] is its code, an index inside the child array. *)
Definition seven_bit (c : ascii) : Prop := (nat_of_ascii c < 128)%nat.

#[global] Instance seven_bit_dec c : Decision (seven_bit c).
Proof. unfold seven_bit. apply _. Defined.

(** The indices a string of characters designates, one per character. *)
Definition slots_of (path : str) : list Z := int_of_char <$> path.

(** The node reached from [t] by following the indices [slots], one child
    per index; [None] when they leave the trie. *)
Fixpoint descend {V} (t : option (Trie.Node V)) (slots : list Z) : option (Trie.Node V) :=
  match slots with
  | [] => t
  | i :: rest =>
      match t with
      | None => None
      | Some n => descend (Trie.m_children n i) rest
      end
  end.

(** The values stored at the node at the end of [slots] from [t] (none
    when there is no such node). *)
Definition values_from {V} (t : option (Trie.Node V)) (slots : list Z) : list V :=
  match descend t slots with
  | Some n => Trie.m_values n
  | None => []
  end.

(** The values stored at the end of the root path spelled by [path]. *)
Definition values_at {V} (t : Trie.Trie V) (path : str) : list V :=
  values_from (Some (Trie.m_root t)) (slots_of path).

(** Below [t], only slots of 7-bit characters are occupied. *)
Definition seven_bit_below {V} (t : option (Trie.Node V)) : Prop :=
  forall slots, descend t slots <> None -> Forall (fun i => 0 <= i < 128) slots.

(** A trie that holds keys of 7-bit characters only: every occupied slot,
    at every node, is one of 0 .. 127. *)
Definition seven_bit_trie {V} (t : Trie.Trie V) : Prop :=
  seven_bit_below (Some (Trie.m_root t)).

(** Every value of the trie sits at the end of a path that a string of
    characters spells. *)
Definition char_keyed {V} (t : Trie.Trie V) : Prop :=
  forall slots v, v ∈ values_from (Some (Trie.m_root t)) slots ->
                  exists path, slots = slots_of path.

(** The number of positions at which two strings differ. *)
Fixpoint mismatches (a b : str) : nat :=
  match a, b with
  | x :: a', y :: b' => (if decide (x = y) then 0 else 1) + mismatches a' b'
  | _, _ => 0
  end.

(** The mismatch budget of a lookup. *)
Definition budget (exactOnly : bool) : nat := if exactOnly then 0%nat else 1%nat.

(** [path] is as long as [key] and differs from it in at most
    [budget exactOnly] positions. *)
Definition within_budget (key : str) (exactOnly : bool) (path : str) : Prop :=
  length path = length key /\ (mismatches path key <= budget exactOnly)%nat.

(** The root paths [find] is meant to collect for a non-empty key: as long
    as the key, with its first character, and within the budget past it. *)
Definition admissible (key : str) (exactOnly : bool) (path : str) : Prop :=
  length path = length key /\ head path = head key
  /\ (mismatches (tail path) (tail key) <= budget exactOnly)%nat.

(** The paths [findHelper] follows for [key], as lists of slot indices
    and in its order: the slot of the character itself, then, while the
    budget lasts, every other slot of the array. *)
Fixpoint visited_slots (key : str) (exactOnly : bool) : list (list Z) :=
  match key with
  | [] => [[]]
  | firstChar :: rest =>
      if exactOnly then (int_of_char firstChar ::.) <$> visited_slots rest true
      else ((int_of_char firstChar ::.) <$> visited_slots rest false)
           ++ flat_map (fun i => if i =? int_of_char firstChar then []
                                 else (i ::.) <$> visited_slots rest true)
                       (seqZ 0 Trie.POSSIBLE_CHARACTERS)
  end.

(** The root paths [find] follows: the slot of the first character of the
    key, then what [findHelper] follows for the rest. *)
Definition collected_slots (key : str) (exactOnly : bool) : list (list Z) :=
  match key with
  | [] => [[]]
  | firstChar :: rest => (int_of_char firstChar ::.) <$> visited_slots rest exactOnly
  end.

(** The paths that [findHelper] follows for [key] besides the one of the
    key itself: those that leave it at one slot. *)
Fixpoint one_off_slots (key : str) : list (list Z) :=
  match key with
  | [] => []
  | firstChar :: rest =>
      ((int_of_char firstChar ::.) <$> one_off_slots rest)
      ++ flat_map (fun i => if i =? int_of_char firstChar then []
                            else [i :: slots_of rest])
                  (seqZ 0 Trie.POSSIBLE_CHARACTERS)
  end.

(** The strings within the budget of [key], each once: the key first,
    then those with a mismatch, by the position and the code of the
    mismatching character. *)
Fixpoint visited (key : str) (exactOnly : bool) : list str :=
  match key with
  | [] => [[]]
  | firstChar :: rest =>
      if exactOnly then (firstChar ::.) <$> visited rest true
      else ((firstChar ::.) <$> visited rest false)
           ++ flat_map (fun i => if (i =? nat_of_ascii firstChar)%nat then []
                                 else (ascii_of_nat i ::.) <$> visited rest true)
                       (seq 0 256)
  end.

(** The admissible root paths of a key, each once: the first character of
    the key, then a string within the budget of the rest. *)
Definition collected (key : str) (exactOnly : bool) : list str :=
  match key with
  | [] => [[]]
  | firstChar :: rest => (firstChar ::.) <$> visited rest exactOnly
  end.

(** The matcher obtained from the constructor by adding the genomes [gs]
    in order: every state a caller can reach. *)
Definition build (k : Z) (gs : list GenomeImpl) : GenomeMatcher.GenomeMatcherImpl :=
  foldl (fun m g => GenomeMatcher.addGenome g m) (GenomeMatcher.new k) gs.

(** One of the letters a sequence consists of: the bases A, C, G, T, N the
    source assumes, in either case (the loader accepts both). *)
Definition is_base (c : ascii) : bool :=
  bool_decide (c ∈ $"ACGTNacgtn").

(** The seed hits the trie returns for the fragment's k-prefix. *)
Definition seeds (m : GenomeMatcher.GenomeMatcherImpl) (fragment : str)
    (exactOnly : bool) : list (Z * Z) :=
  Trie.find (substr fragment 0 (size_t_of_int (GenomeMatcher.m_minSearchLength m)))
    exactOnly (GenomeMatcher.m_sequencedDNA m).

(** The library genome a seed names by its 1-based number. *)
Definition genome_of (m : GenomeMatcher.GenomeMatcherImpl) (gid : Z) : option GenomeImpl :=
  GenomeMatcher.m_genomeLibrary m !! Z.to_nat (gid - 1).

(** The match that extending a seed produces: the name of the seed's
    genome, the [actualLength] the extension loop reaches, and the seed's
    position. *)
Definition candidate_of (m : GenomeMatcher.GenomeMatcherImpl) (fragment : str)
    (exactOnly : bool) (seed : Z * Z) : option DNAMatch.t :=
  g ← genome_of m seed.1;
  Some (DNAMatch.mk (Genome.name g)
          (GenomeMatcher.actualLength_of (GenomeMatcher.m_minSearchLength m) g fragment
             exactOnly seed.2)
          seed.2).

(** [d] is a candidate the loop over the seeds [found] keeps for the genome
    [gid]: what the extension loop of the source makes of a seed of that
    genome, when it is not shorter than [minimumLength].  This is the
    code's own notion, used to state what the loop maintains; whether a
    candidate is a match of the genome is the matter of [backed_by]. *)
Definition candidate_among (found : list (Z * Z)) (m : GenomeMatcher.GenomeMatcherImpl)
    (fragment : str) (minimumLength : Z) (exactOnly : bool) (gid : Z) (d : DNAMatch.t)
    : Prop :=
  exists pos, (gid, pos) ∈ found
    /\ candidate_of m fragment exactOnly (gid, pos) = Some d
    /\ minimumLength <= DNAMatch.length d.

(** The candidates of a query: those of the seeds the trie returns for
    the fragment's k-prefix. *)
Definition candidate_match (m : GenomeMatcher.GenomeMatcherImpl) (fragment : str)
    (minimumLength : Z) (exactOnly : bool) (gid : Z) (d : DNAMatch.t) : Prop :=
  candidate_among (seeds m fragment exactOnly) m fragment minimumLength exactOnly gid d.

(** Every seed of the index is stored at a path that a string spells; it
    names a genome of the library by its 1-based number, and a window of
    that genome that spells the path at which the seed is stored. *)
Definition seeds_in_library (m : GenomeMatcher.GenomeMatcherImpl) : Prop :=
  char_keyed (GenomeMatcher.m_sequencedDNA m)
  /\ forall path gid pos,
       (gid, pos) ∈ values_at (GenomeMatcher.m_sequencedDNA m) path ->
       1 <= gid <= size (GenomeMatcher.m_genomeLibrary m)
       /\ exists g, genome_of m gid = Some g
            /\ Genome.extract g pos (GenomeMatcher.m_minSearchLength m) = Some path.

(** The state of the map [match] once the seeds [seen] have been visited:
    each entry is a candidate of its genome, and no candidate of a genome
    is longer than the genome's entry. *)
Definition best_so_far (m : GenomeMatcher.GenomeMatcherImpl) (fragment : str)
    (minimumLength : Z) (exactOnly : bool) (best : gmap Z DNAMatch.t)
    (seen : list (Z * Z)) : Prop :=
  forall gid,
    (forall d, best !! gid = Some d ->
       candidate_among seen m fragment minimumLength exactOnly gid d)
    /\ (forall d', candidate_among seen m fragment minimumLength exactOnly gid d' ->
          exists d, best !! gid = Some d /\ DNAMatch.length d' <= DNAMatch.length d).

(** The number of windows of the query counted for a genome name: the
    counter [genomeMatches[name]] when the loop over the windows ends. *)
Definition window_hits (m : GenomeMatcher.GenomeMatcherImpl) (query : GenomeImpl)
    (fragmentMatchLength : Z) (exactOnly : bool) (name : string) : Z :=
  default 0
    (GenomeMatcher.count_windows
       (Z.to_nat (Genome.length query `quot` fragmentMatchLength))
       m query fragmentMatchLength exactOnly 0 ∅ !! name).

(** The number of positions at which the [len] bases of [g] from [pos]
    differ from the first [len] characters of the fragment. *)
Definition differences (g : GenomeImpl) (fragment : str) (pos len : Z) : nat :=
  mismatches (segment (m_sequence g) pos len) (take (Z.to_nat len) fragment).

(** The genome backs a match of [len] bases at [pos]: the window lies
    inside the genome, is not longer than the fragment, starts with the
    fragment's first character and differs from the fragment in at most
    [budget exactOnly] positions. *)
Definition backed_by (g : GenomeImpl) (fragment : str) (exactOnly : bool)
    (pos len : Z) : Prop :=
  0 <= pos /\ 1 <= len <= size fragment /\ pos + len <= Genome.length g
  /\ head (segment (m_sequence g) pos len) = head fragment
  /\ (differences g fragment pos len <= budget exactOnly)%nat.

(** What the extension loop has established when it is about to run the
    iteration for [actualLength], with [allowed] differences permitted. *)
Definition loop_reached (g : GenomeImpl) (fragment : str) (pos : Z) (allowed : nat)
    (snipped : bool) (actualLength : Z) : Prop :=
  if snipped then (differences g fragment pos (actualLength - 1) <= allowed)%nat
  else allowed = 1%nat /\ (differences g fragment pos actualLength <= 1)%nat.

(** What the extension loop returns: a length whose window lies inside the
    genome and is within the allowed differences, or one base more than
    such a length, reaching one base past the end of the genome. *)
Definition loop_result (g : GenomeImpl) (fragment : str) (pos : Z) (allowed : nat)
    (len : Z) : Prop :=
  0 <= len <= size fragment
  /\ ((pos + len <= Genome.length g
       /\ (differences g fragment pos len <= allowed)%nat)
      \/ (pos + len = Genome.length g + 1
          /\ (differences g fragment pos (len - 1) <= allowed)%nat)).

(** The [j]-th window of the query: [fragmentMatchLength] bases from
    [j * fragmentMatchLength]. *)
Definition window (query : GenomeImpl) (fragmentMatchLength j : Z) : str :=
  segment (m_sequence query) (j * fragmentMatchLength) fragmentMatchLength.

(** The search for the window [w] reports a genome called [name]. *)
Definition found_in (m : GenomeMatcher.GenomeMatcherImpl) (fragmentMatchLength : Z)
    (exactOnly : bool) (name : string) (w : str) : Prop :=
  name ∈ DNAMatch.genomeName <$>
           (GenomeMatcher.findGenomesWithThisDNA m w fragmentMatchLength exactOnly []).2.

#[global] Instance found_in_dec m fragmentMatchLength exactOnly name w :
  Decision (found_in m fragmentMatchLength exactOnly name w).
Proof. unfold found_in. apply _. Defined.

(** A GenomeMatch as its name and the fraction its percentage stands for. *)
Definition shown (r : GenomeMatch.t) : string * Q :=
  (GenomeMatch.genomeName r, this (GenomeMatch.percentMatch r)).

(** A genome as the matcher assumes it: a name, at least one base, and
    only the uppercase bases A, C, G, T, N. *)
Definition valid_genome (g : GenomeImpl) : Prop :=
  m_name g <> ""%string /\ m_sequence g <> []
  /\ forallb Load.is_ACGTN (m_sequence g) = true.

(** A character that may stand in a base line of a genome file. *)
Definition is_base_letter (c : ascii) : bool := Load.is_ACGTN (toupper c).

(** The text of one record of a genome file: the name line and the lines
    of bases, each ended by a newline. *)
Definition render (name : str) (lines : list str) : str :=
  ">"%char :: (name ++ Load.newline :: flat_map (fun l => l ++ [Load.newline]) lines).

(** A record that [render] writes unambiguously: a non-empty name within
    one line and one or more non-empty lines of base letters. *)
Definition renderable (record : str * list str) : Prop :=
  fst record <> [] /\ (Load.newline ∉ fst record)
  /\ snd record <> []
  /\ Forall (fun l => l <> [] /\ forallb is_base_letter l = true) (snd record).

(** The genome a record stands for. *)
Definition genome_of_record (record : str * list str) : GenomeImpl :=
  Genome (string_of_list_ascii (fst record)) (toupper <$> concat (snd record)).

(** The rational number that a finite float denotes, for the floats of
    the Standard Library's specification of IEEE 754 arithmetic. *)
Definition rational_of_float (f : SpecFloat.spec_float) : option Qc :=
  match f with
  | SpecFloat.S754_zero _ => Some 0%Qc
  | SpecFloat.S754_finite s m e =>
      let n := if s then Z.neg m else Z.pos m in
      Some (if 0 <=? e then Qc_of_Z (n * 2 ^ e)
            else Q2Qc (Qmake n (2 ^ Z.to_pos (- e))%positive))
  | _ => None
  end.

(** [(count / (double) numSequences) * 100] in that specification, at the
    precision and exponent range of binary64. *)
Definition binary64_percent (count numSequences : Z) : SpecFloat.spec_float :=
  SpecFloat.SFmul 53 1024
    (SpecFloat.SFdiv 53 1024
       (SpecFloat.binary_normalize 53 1024 count 0 false)
       (SpecFloat.binary_normalize 53 1024 numSequences 0 false))
    (SpecFloat.binary_normalize 53 1024 100 0 false).

(** The trie obtained from the empty one by inserting the pairs of [kvs]
    in order. *)
Definition trie_of {V} (kvs : list (str * V)) : Trie.Trie V :=
  foldl (fun t kv => Trie.insert (fst kv) (snd kv) t) Trie.empty kvs.

(** * Properties *)

(** ** Strings and conversions *)

Lemma size_nonneg {A} (s : list A) : 0 <= size s.
Proof. unfold size. lia. Qed.

Lemma size_t_of_int_nonneg z : 0 <= z -> size_t_of_int z = z.
Proof. intros Hz. unfold size_t_of_int. destruct (Z.ltb_spec z 0); lia. Qed.

Lemma size_t_of_int_neg z : z < 0 -> size_t_of_int z = z + 2 ^ 64.
Proof. intros Hz. unfold size_t_of_int. destruct (Z.ltb_spec z 0); lia. Qed.

Lemma substr_segment s pos count :
  0 <= count -> pos + count <= size s -> substr s pos count = segment s pos count.
Proof.
  intros Hc Hle. unfold substr, segment.
  replace (Z.min count (size s - pos)) with count by lia. reflexivity.
Qed.

Lemma size_segment s pos len :
  0 <= pos -> 0 <= len -> pos + len <= size s -> size (segment s pos len) = len.
Proof.
  intros Hp Hl Hle. unfold segment, size in *.
  rewrite length_take, length_drop. lia.
Qed.

Lemma segment_prefix s len : segment s 0 len = take (Z.to_nat len) s.
Proof. reflexivity. Qed.

Lemma Forall_substr (P : ascii -> Prop) s pos count :
  Forall P s -> Forall P (substr s pos count).
Proof. intros H. unfold substr. by apply Forall_take, Forall_drop. Qed.

(** ** Genome *)

Section GenomeFacts.
Variable g : GenomeImpl.

Lemma extract_in_range position length :
  0 <= length -> in_range g position length ->
  Genome.extract g position length = Some (segment (m_sequence g) position length).
Proof.
  intros Hl [[Hp Hlt] Hle]. unfold Genome.extract, Genome.length in *.
  rewrite !size_t_of_int_nonneg by lia.
  destruct (Z.ltb_spec position 0); [lia|].
  destruct (Z.leb_spec (size (m_sequence g)) position); [lia|]. simpl.
  destruct (Z.ltb_spec (size (m_sequence g)) (position + length)); [lia|].
  by rewrite substr_segment.
Qed.

Lemma extract_out_of_range position length :
  0 <= length -> ~ in_range g position length ->
  Genome.extract g position length = None.
Proof.
  intros Hl Hout. unfold Genome.extract, in_range, Genome.length in *.
  destruct (Z.ltb_spec position 0) as [|Hp]; [done|].
  rewrite !size_t_of_int_nonneg by lia.
  destruct (Z.leb_spec (size (m_sequence g)) position); [done|]. simpl.
  destruct (Z.ltb_spec (size (m_sequence g)) (position + length)); [done|lia].
Qed.

Lemma extract_Some position length s :
  0 <= length ->
  Genome.extract g position length = Some s <->
  in_range g position length /\ s = segment (m_sequence g) position length.
Proof.
  intros Hl. split.
  - intros He. destruct (decide (0 <= position < Genome.length g
                                 /\ position + length <= Genome.length g)) as [Hin|Hout].
    + split; [exact Hin|]. rewrite (extract_in_range _ _ Hl Hin) in He. congruence.
    + rewrite (extract_out_of_range _ _ Hl Hout) in He. discriminate.
  - intros [Hin ->]. by apply extract_in_range.
Qed.

(** Every successful extraction is cut out of the stored sequence. *)
Lemma extract_is_substr position length s :
  Genome.extract g position length = Some s ->
  s = substr (m_sequence g) position (size_t_of_int length).
Proof.
  unfold Genome.extract. repeat case_match; congruence.
Qed.
End GenomeFacts.

(** A negative [length] with [0 <= position + length] passes both tests;
    converted to [size_t] it is a huge count, and [substr] returns the rest
    of the sequence. *)
Example extract_negative_length :
  Genome.extract (Genome "g" $"ACGT") 2 (-1) = Some $"GT".
Proof. reflexivity. Qed.

(** C8, as stated, fails: position 4 with length 0 satisfies
    [position >= 0] and [position + length <= g.length] on a genome of four
    bases, yet [extract] reports failure, because it also requires
    [position < g.length]. *)
Lemma extract_at_end_refutes_iff :
  ~ (is_Some (Genome.extract (Genome "g" $"ACGT") 4 0)
     <-> 0 <= 4 /\ 4 + 0 <= Genome.length (Genome "g" $"ACGT")).
Proof.
  intros [_ H]. assert (Hs : is_Some (Genome.extract (Genome "g" $"ACGT") 4 0)).
  { apply H. vm_compute. split; discriminate. }
  destruct Hs as [s Hs]. vm_compute in Hs. discriminate.
Qed.

(** C8 (amended): for a non-negative [length], [extract(position, length)]
    succeeds, yielding the segment [position .. position+length) of the
    sequence, if and only if [0 <= position < g.length] and
    [position + length <= g.length]; on every other such input it fails and
    yields nothing. *)
Theorem extract_succeeds_iff_in_range (g : GenomeImpl) (position length : Z) :
  0 <= length ->
  (in_range g position length ->
   Genome.extract g position length = Some (segment (m_sequence g) position length))
  /\ (~ in_range g position length -> Genome.extract g position length = None).
Proof.
  intros Hl. split; [by apply extract_in_range | by apply extract_out_of_range].
Qed.

Lemma extract_succeeds_iff_in_range_witness :
  Genome.extract (Genome "g" $"ACGT") 1 2 = Some $"CG"
  /\ Genome.extract (Genome "g" $"ACGT") 3 2 = None.
Proof.
  split.
  - apply (extract_succeeds_iff_in_range (Genome "g" $"ACGT") 1 2); [lia|].
    vm_compute. repeat split; discriminate.
  - apply (extract_succeeds_iff_in_range (Genome "g" $"ACGT") 3 2); [lia|].
    vm_compute. intros [_ H]. by apply H.
Defined.

(** C9, as stated, fails: the constructor does not change the case of the
    sequence, so a genome built from lowercase letters hands them back. *)
Lemma lowercase_genome_refutes_uppercase :
  ~ (forall fragment,
       Genome.extract (Genome "g" $"acgt") 0 4 = Some fragment ->
       Forall is_upper fragment).
Proof.
  intros H. specialize (H $"acgt" eq_refl).
  apply Forall_cons in H as [H _]. vm_compute in H. discriminate.
Qed.

(** C9 (amended): the constructor stores the sequence exactly as it is
    given, whatever the case of its letters.  The stored sequence is the
    given one; extracting the whole of a non-empty sequence hands it back
    unchanged; every successful [extract] returns the characters of the
    given sequence from [position] on, as they were given; and so it
    returns only uppercase characters whenever the sequence passed to the
    constructor was uppercase. *)
Theorem constructor_stores_sequence_verbatim (nm : string) (sequence : str) :
  m_sequence (Genome nm sequence) = sequence
  /\ (sequence <> [] ->
      Genome.extract (Genome nm sequence) 0 (size sequence) = Some sequence)
  /\ (forall position length fragment,
        Genome.extract (Genome nm sequence) position length = Some fragment ->
        fragment = substr sequence position (size_t_of_int length)
        /\ (Forall is_upper sequence -> Forall is_upper fragment)).
Proof.
  split_and!.
  - reflexivity.
  - intros Hne. pose proof (size_nonneg sequence) as Hs.
    assert (0 < size sequence) as Hpos by (destruct sequence; [done|unfold size; simpl; lia]).
    rewrite extract_in_range; [|lia|unfold in_range, Genome.length; simpl; lia].
    simpl. unfold segment. simpl. f_equal. apply take_ge. unfold size. lia.
  - intros position length fragment He.
    apply extract_is_substr in He as ->. simpl. split; [reflexivity|].
    intros Hup. by apply Forall_substr.
Qed.

Lemma constructor_stores_sequence_verbatim_witness :
  Genome.extract (Genome "g" $"acGT") 0 (size $"acGT") = Some $"acGT"
  /\ $"cG" = substr $"acGT" 1 (size_t_of_int 2).
Proof.
  pose proof (constructor_stores_sequence_verbatim "g" $"acGT") as (_ & Hwhole & Hpiece).
  split.
  - apply Hwhole. discriminate.
  - apply (Hpiece 1 2 $"cG"). reflexivity.
Defined.

(** ** Genome: more on [extract] *)

Lemma segment_app s position l1 l2 :
  0 <= position -> 0 <= l1 -> 0 <= l2 ->
  segment s position (l1 + l2) = segment s position l1 ++ segment s (position + l1) l2.
Proof.
  intros Hp H1 H2. unfold segment.
  rewrite !Z2Nat.inj_add by lia. rewrite <- drop_drop. apply eq_sym, take_take_drop.
Qed.

(** X1: two adjacent extractions compose: a window of [l1 + l2] bases can
    be extracted exactly when its first [l1] bases and the [l2 > 0] bases
    after them can, and it is their concatenation. *)
Theorem extract_adjacent (g : GenomeImpl) (position l1 l2 : Z) (s : str) :
  0 <= l1 -> 0 < l2 ->
  Genome.extract g position (l1 + l2) = Some s
  <-> exists a b, Genome.extract g position l1 = Some a
        /\ Genome.extract g (position + l1) l2 = Some b
        /\ s = a ++ b.
Proof.
  intros H1 H2. rewrite extract_Some by lia. split.
  - intros [[Hp Hfit] ->].
    exists (segment (m_sequence g) position l1),
           (segment (m_sequence g) (position + l1) l2).
    split_and!.
    + apply extract_in_range; [lia|]. unfold in_range. lia.
    + apply extract_in_range; [lia|]. unfold in_range. lia.
    + apply segment_app; lia.
  - intros (a & b & Ha & Hb & ->).
    apply extract_Some in Ha as [[Hp Ha1] ->]; [|lia].
    apply extract_Some in Hb as [[Hq Hb1] ->]; [|lia].
    split; [unfold in_range; lia|]. symmetry. apply segment_app; lia.
Qed.

Lemma extract_adjacent_witness :
  Genome.extract (Genome "g" $"ACGTAC") 1 (2 + 3) = Some $"CGTAC"
  <-> exists a b, Genome.extract (Genome "g" $"ACGTAC") 1 2 = Some a
        /\ Genome.extract (Genome "g" $"ACGTAC") (1 + 2) 3 = Some b
        /\ $"CGTAC" = a ++ b.
Proof.
  apply (extract_adjacent (Genome "g" $"ACGTAC") 1 2 3 $"CGTAC"); lia.
Defined.

(** X2: a negative [length] (of an [int], on a sequence within the size a
    string can have) is not rejected as such: the extraction succeeds
    exactly when [0 <= position < g.length] and [0 <= position + length],
    and it then yields the whole rest of the sequence from [position]. *)
Theorem extract_negative_length_gives_rest (g : GenomeImpl) (position length : Z) :
  - 2 ^ 31 <= length < 0 ->
  Genome.length g < 2 ^ 63 ->
  (0 <= position < Genome.length g /\ 0 <= position + length ->
   Genome.extract g position length = Some (drop (Z.to_nat position) (m_sequence g)))
  /\ (~ (0 <= position < Genome.length g /\ 0 <= position + length) ->
      Genome.extract g position length = None).
Proof.
  intros Hl Hsize. unfold Genome.extract, Genome.length in *.
  pose proof (size_nonneg (m_sequence g)) as Hs. split.
  - intros [Hp Hsum].
    destruct (Z.ltb_spec position 0); [lia|].
    rewrite (size_t_of_int_nonneg position), (size_t_of_int_nonneg (position + length)),
      (size_t_of_int_neg length) by lia.
    destruct (Z.leb_spec (size (m_sequence g)) position); [lia|]. simpl.
    destruct (Z.ltb_spec (size (m_sequence g)) (position + length)); [lia|].
    unfold substr. rewrite Z.min_r by lia. f_equal. apply take_ge.
    rewrite length_drop. unfold size in *. lia.
  - intros Hnot.
    destruct (Z.ltb_spec position 0); [done|].
    rewrite (size_t_of_int_nonneg position) by lia.
    destruct (Z.leb_spec (size (m_sequence g)) position); [done|]. simpl.
    rewrite size_t_of_int_neg by lia.
    destruct (Z.ltb_spec (size (m_sequence g)) (position + length + 2 ^ 64)); [done|lia].
Qed.

Lemma extract_negative_length_gives_rest_witness :
  Genome.extract (Genome "g" $"ACGT") 2 (-1) = Some $"GT"
  /\ Genome.extract (Genome "g" $"ACGT") 2 (-3) = None.
Proof.
  split.
  - apply (extract_negative_length_gives_rest (Genome "g" $"ACGT") 2 (-1)).
    + lia.
    + vm_compute. reflexivity.
    + vm_compute. repeat split; discriminate.
  - apply (extract_negative_length_gives_rest (Genome "g" $"ACGT") 2 (-3)).
    + lia.
    + vm_compute. reflexivity.
    + vm_compute. intros [_ H]. by apply H.
Defined.

(** ** Trie: what [find] collects *)

Section FlatMap.
Context {A B : Type}.

Lemma elem_of_flat_map (f : A -> list B) (l : list A) (x : B) :
  x ∈ flat_map f l <-> exists y, y ∈ l /\ x ∈ f y.
Proof.
  rewrite list_elem_of_In, in_flat_map. setoid_rewrite <- list_elem_of_In. reflexivity.
Qed.

Lemma flat_map_empty (l : list A) : flat_map (fun _ => @nil B) l = [].
Proof. induction l; simpl; congruence. Qed.

Lemma flat_map_fmap {C} (f : B -> list C) (g : A -> B) (l : list A) :
  flat_map f (g <$> l) = flat_map (fun x => f (g x)) l.
Proof.
  induction l as [|a l IH]; [reflexivity|].
  rewrite fmap_cons. simpl. by rewrite IH.
Qed.

Lemma flat_map_nested {C} (f : B -> list C) (g : A -> list B) (l : list A) :
  flat_map f (flat_map g l) = flat_map (fun x => flat_map f (g x)) l.
Proof.
  induction l as [|a l IH]; simpl; [reflexivity|].
  by rewrite flat_map_app, IH.
Qed.

Lemma flat_map_agree (f g : A -> list B) (l : list A) :
  (forall x, x ∈ l -> f x = g x) -> flat_map f l = flat_map g l.
Proof.
  induction l as [|a l IH]; intros H; simpl; [reflexivity|].
  rewrite (H a) by left. f_equal. apply IH. intros x Hx. apply H. by right.
Qed.
End FlatMap.

(** *** Characters as indices *)

Lemma int_of_char_range c : -128 <= int_of_char c < 128.
Proof.
  unfold int_of_char. pose proof (nat_ascii_bounded c).
  destruct (Z.ltb_spec (Z.of_nat (nat_of_ascii c)) 128); lia.
Qed.

Lemma int_of_char_seven_bit c : seven_bit c -> 0 <= int_of_char c < 128.
Proof.
  unfold seven_bit, int_of_char. intros Hc.
  destruct (Z.ltb_spec (Z.of_nat (nat_of_ascii c)) 128); lia.
Qed.

Lemma int_of_char_inj a b : int_of_char a = int_of_char b -> a = b.
Proof.
  intros H. rewrite <- (ascii_nat_embedding a), <- (ascii_nat_embedding b). f_equal.
  unfold int_of_char in H.
  pose proof (nat_ascii_bounded a). pose proof (nat_ascii_bounded b).
  destruct (Z.ltb_spec (Z.of_nat (nat_of_ascii a)) 128),
    (Z.ltb_spec (Z.of_nat (nat_of_ascii b)) 128); lia.
Qed.

Lemma slots_of_inj a : forall b, slots_of a = slots_of b -> a = b.
Proof.
  induction a as [|x a IH]; intros [|y b]; simpl; try done.
  intros [= H1 H2]. f_equal; [by apply int_of_char_inj|by apply IH].
Qed.

Lemma int_of_char_low i : (i < 128)%nat -> int_of_char (ascii_of_nat i) = Z.of_nat i.
Proof.
  intros Hi. unfold int_of_char. rewrite nat_ascii_embedding by lia.
  destruct (Z.ltb_spec (Z.of_nat i) 128); lia.
Qed.

Lemma int_of_char_high i :
  (128 <= i < 256)%nat -> int_of_char (ascii_of_nat i) = Z.of_nat i - 256.
Proof.
  intros Hi. unfold int_of_char. rewrite nat_ascii_embedding by lia.
  destruct (Z.ltb_spec (Z.of_nat i) 128); lia.
Qed.

Lemma slots_as_codes : seqZ 0 Trie.POSSIBLE_CHARACTERS = Z.of_nat <$> seq 0 256.
Proof. reflexivity. Qed.

Section TrieFacts.
Context {V : Type}.
Implicit Types (t : option (Trie.Node V)) (n : Trie.Node V) (key path : str)
  (slots : list Z).

Lemma descend_None slots : descend (V:=V) None slots = None.
Proof. by destruct slots. Qed.

Lemma values_from_None slots : values_from (V:=V) None slots = [].
Proof. unfold values_from. by rewrite descend_None. Qed.

Lemma values_from_cons n i slots :
  values_from (Some n) (i :: slots) = values_from (Trie.m_children n i) slots.
Proof. reflexivity. Qed.

Lemma findHelper_None key exactOnly : Trie.findHelper (ValueType:=V) key exactOnly None = [].
Proof. by destruct key. Qed.

(** [findHelper] appends the values at the end of every path it follows,
    in the order of [visited_slots]. *)
Lemma findHelper_visited_slots key : forall exactOnly t,
  Trie.findHelper key exactOnly t = flat_map (values_from t) (visited_slots key exactOnly).
Proof.
  induction key as [|c rest IH]; intros exactOnly [n|].
  - simpl. by rewrite app_nil_r.
  - reflexivity.
  - cbn [Trie.findHelper visited_slots]. destruct exactOnly.
    + rewrite IH, flat_map_fmap. reflexivity.
    + rewrite flat_map_app, flat_map_fmap, (IH false). f_equal.
      rewrite flat_map_nested. apply flat_map_agree. intros i _.
      destruct (i =? int_of_char c); [reflexivity|].
      rewrite flat_map_fmap, IH. reflexivity.
  - rewrite findHelper_None.
    rewrite (flat_map_agree _ (fun _ => [])), flat_map_empty; [reflexivity|].
    intros p _. apply values_from_None.
Qed.

Lemma seven_bit_below_None : seven_bit_below (V:=V) None.
Proof. intros slots H. by rewrite descend_None in H. Qed.

Lemma seven_bit_below_child n i :
  seven_bit_below (Some n) -> seven_bit_below (Trie.m_children n i).
Proof.
  intros Hn slots Hs. specialize (Hn (i :: slots) Hs). by apply Forall_cons in Hn as [_ ?].
Qed.

Lemma seven_bit_below_slot n i :
  seven_bit_below (Some n) -> ~ 0 <= i < 128 -> Trie.m_children n i = None.
Proof.
  intros Hn Hi. destruct (Trie.m_children n i) as [child|] eqn:Hc; [|done].
  specialize (Hn [i]). simpl in Hn. rewrite Hc in Hn.
  specialize (Hn ltac:(done)). by apply Forall_cons in Hn as [? _].
Qed.

(** Below a node whose occupied slots are those of 7-bit characters,
    [findHelper] appends the values at the end of every string within the
    budget, in the order of [visited]. *)
Lemma findHelper_visited key : forall exactOnly t,
  seven_bit_below t ->
  Trie.findHelper key exactOnly t
  = flat_map (fun p => values_from t (slots_of p)) (visited key exactOnly).
Proof.
  induction key as [|c rest IH]; intros exactOnly [n|] Ht.
  - simpl. by rewrite app_nil_r.
  - reflexivity.
  - cbn [Trie.findHelper visited]. destruct exactOnly.
    + rewrite IH by (by apply seven_bit_below_child). rewrite flat_map_fmap. reflexivity.
    + rewrite flat_map_app, flat_map_fmap, (IH false) by (by apply seven_bit_below_child).
      f_equal. rewrite slots_as_codes, flat_map_fmap, flat_map_nested.
      apply flat_map_agree. intros i Hi. apply elem_of_seq in Hi.
      destruct (decide (i < 128)%nat) as [Hlow|Hhigh].
      * assert ((Z.of_nat i =? int_of_char c) = (i =? nat_of_ascii c)%nat) as ->.
        { unfold int_of_char. pose proof (nat_ascii_bounded c).
          destruct (Z.ltb_spec (Z.of_nat (nat_of_ascii c)) 128),
            (Nat.eqb_spec i (nat_of_ascii c)), (Z.eqb_spec (Z.of_nat i)
              (if Z.of_nat (nat_of_ascii c) <? 128 then Z.of_nat (nat_of_ascii c)
               else Z.of_nat (nat_of_ascii c) - 256)); try reflexivity;
            destruct (Z.ltb_spec (Z.of_nat (nat_of_ascii c)) 128); lia. }
        destruct (i =? nat_of_ascii c)%nat; [reflexivity|].
        rewrite flat_map_fmap, IH by (by apply seven_bit_below_child).
        apply flat_map_agree. intros p _. simpl.
        by rewrite int_of_char_low.
      * rewrite (seven_bit_below_slot n (Z.of_nat i) Ht) by lia.
        rewrite findHelper_None. destruct (Z.of_nat i =? int_of_char c).
        -- destruct (i =? nat_of_ascii c)%nat; [reflexivity|].
           rewrite flat_map_fmap. symmetry.
           rewrite (flat_map_agree _ (fun _ => [])), flat_map_empty; [reflexivity|].
           intros p _. simpl. rewrite values_from_cons.
           rewrite (seven_bit_below_slot n _ Ht); [apply values_from_None|].
           rewrite int_of_char_high by lia. lia.
        -- destruct (i =? nat_of_ascii c)%nat; [reflexivity|].
           rewrite flat_map_fmap. symmetry.
           rewrite (flat_map_agree _ (fun _ => [])), flat_map_empty; [reflexivity|].
           intros p _. simpl. rewrite values_from_cons.
           rewrite (seven_bit_below_slot n _ Ht); [apply values_from_None|].
           rewrite int_of_char_high by lia. lia.
  - rewrite findHelper_None.
    rewrite (flat_map_agree _ (fun _ => [])), flat_map_empty; [reflexivity|].
    intros p _. apply values_from_None.
Qed.
End TrieFacts.

Lemma mismatches_nil_r a : mismatches a [] = 0%nat.
Proof. by destruct a. Qed.

Lemma mismatches_zero a : forall b,
  length a = length b -> mismatches a b = 0%nat -> a = b.
Proof.
  induction a as [|x a IH]; intros [|y b] Hlen Hm; try done.
  simpl in *. destruct (decide (x = y)) as [->|]; [|lia].
  f_equal. apply IH; lia.
Qed.

Lemma mismatches_refl a : mismatches a a = 0%nat.
Proof. induction a as [|x a IH]; simpl; [done|]. by rewrite decide_True. Qed.

Lemma visited_exact key : visited key true = [key].
Proof. induction key as [|c rest IH]; simpl; [done|]. by rewrite IH. Qed.

Lemma visited_slots_exact key : visited_slots key true = [slots_of key].
Proof. induction key as [|c rest IH]; simpl; [done|]. by rewrite IH. Qed.

Lemma within_budget_exact key path : within_budget key true path <-> path = key.
Proof.
  unfold within_budget. simpl. split.
  - intros [Hl Hm]. apply mismatches_zero; [done|lia].
  - intros ->. rewrite mismatches_refl. done.
Qed.

(** The characters other than [c], by their codes. *)
Lemma elem_of_other_slots (c : ascii) (l : list str) (p : str) :
  p ∈ flat_map (fun i => if (i =? nat_of_ascii c)%nat then []
                         else (ascii_of_nat i ::.) <$> l)
               (seq 0 256)
  <-> exists a p', p = a :: p' /\ a <> c /\ p' ∈ l.
Proof.
  rewrite elem_of_flat_map. split.
  - intros (i & Hi & Hp). apply elem_of_seq in Hi.
    destruct (Nat.eqb_spec i (nat_of_ascii c)) as [|Hne]; [by apply not_elem_of_nil in Hp|].
    apply list_elem_of_fmap in Hp as (p' & -> & Hp').
    exists (ascii_of_nat i), p'. split_and!; [done| |done].
    intros <-. apply Hne. rewrite nat_ascii_embedding; [done|]. lia.
  - intros (b & p' & -> & Hne & Hp'). exists (nat_of_ascii b). split.
    + apply elem_of_seq. pose proof (nat_ascii_bounded b). lia.
    + destruct (Nat.eqb_spec (nat_of_ascii b) (nat_of_ascii c)) as [He|_].
      * exfalso. apply Hne. by rewrite <- (ascii_nat_embedding b), He, ascii_nat_embedding.
      * rewrite ascii_nat_embedding. apply list_elem_of_fmap. by exists p'.
Qed.

Lemma elem_of_visited key : forall exactOnly path,
  path ∈ visited key exactOnly <-> within_budget key exactOnly path.
Proof.
  intros [] path; [rewrite visited_exact, within_budget_exact; apply list_elem_of_singleton|].
  revert path. induction key as [|c rest IH]; intros path.
  - simpl. rewrite list_elem_of_singleton. unfold within_budget. simpl.
    rewrite mismatches_nil_r. split; [intros ->; simpl; lia|].
    intros [Hl _]. by destruct path.
  - cbn [visited]. rewrite elem_of_app, list_elem_of_fmap, elem_of_other_slots.
    setoid_rewrite IH. rewrite visited_exact. setoid_rewrite list_elem_of_singleton.
    unfold within_budget. simpl. split.
    + intros [(p' & -> & Hl & Hm)|(a & p' & -> & Hne & ->)]; simpl.
      * rewrite decide_True by done. split; [congruence|lia].
      * rewrite decide_False by done. rewrite mismatches_refl. split; [done|lia].
    + intros [Hl Hm]. destruct path as [|a p']; [done|]. simpl in *.
      destruct (decide (a = c)) as [->|Hne].
      * left. exists p'. split_and!; [done|lia|lia].
      * right. exists a, p'. split_and!; [done|done|].
        apply mismatches_zero; lia.
Qed.

Lemma NoDup_visited key : forall exactOnly, NoDup (visited key exactOnly).
Proof.
  intros []; [rewrite visited_exact; apply NoDup_singleton|].
  induction key as [|c rest IH]; [apply NoDup_singleton|].
  cbn [visited]. apply NoDup_app. split_and!.
  - apply (NoDup_fmap_2 _), IH.
  - intros p Hp Hq. apply list_elem_of_fmap in Hp as (p' & -> & _).
    apply elem_of_other_slots in Hq as (a & q' & [= <- <-] & Hne & _). done.
  - rewrite visited_exact.
    assert (Hseq : NoDup (seq 0 256)) by apply NoDup_seq.
    assert (Hb : Forall (fun i => (i < 256)%nat) (seq 0 256)).
    { apply Forall_forall. intros i Hi%elem_of_seq. lia. }
    induction Hseq as [|i l Hi Hl IHl]; [constructor|].
    apply Forall_cons in Hb as [Hi256 Hb]. simpl.
    destruct (i =? nat_of_ascii c)%nat; [by apply IHl|].
    simpl. constructor; [|by apply IHl].
    intros Hin. apply elem_of_flat_map in Hin as (j & Hj & Hin).
    destruct (j =? nat_of_ascii c)%nat; [by apply not_elem_of_nil in Hin|].
    apply list_elem_of_singleton in Hin. injection Hin as Hij.
    rewrite Forall_forall in Hb. specialize (Hb j Hj).
    apply (f_equal nat_of_ascii) in Hij. rewrite !nat_ascii_embedding in Hij by done.
    by subst.
Qed.

(** *** The slots [findHelper] reads and the strings they spell *)

Lemma elem_of_scanned_slots (c : ascii) (l : list (list Z)) (p : list Z) :
  p ∈ flat_map (fun i => if i =? int_of_char c then [] else (i ::.) <$> l)
               (seqZ 0 Trie.POSSIBLE_CHARACTERS)
  <-> exists i p', p = i :: p' /\ 0 <= i < 256 /\ i <> int_of_char c /\ p' ∈ l.
Proof.
  rewrite elem_of_flat_map. unfold Trie.POSSIBLE_CHARACTERS. split.
  - intros (i & Hi & Hp). apply elem_of_seqZ in Hi.
    destruct (Z.eqb_spec i (int_of_char c)) as [|Hne]; [by apply not_elem_of_nil in Hp|].
    apply list_elem_of_fmap in Hp as (p' & -> & Hp').
    exists i, p'. split_and!; try done; lia.
  - intros (i & p' & -> & Hi & Hne & Hp'). exists i. split.
    + apply elem_of_seqZ. lia.
    + destruct (Z.eqb_spec i (int_of_char c)) as [|_]; [done|].
      apply list_elem_of_fmap. by exists p'.
Qed.

(** A string whose slots [findHelper] follows is within the budget of the
    key. *)
Lemma visited_slots_within_budget key : forall exactOnly path,
  slots_of path ∈ visited_slots key exactOnly -> within_budget key exactOnly path.
Proof.
  intros [] path.
  { rewrite visited_slots_exact, within_budget_exact, list_elem_of_singleton.
    apply slots_of_inj. }
  revert path. induction key as [|c rest IH]; intros path.
  - simpl. rewrite list_elem_of_singleton. destruct path; [|done].
    intros _. split; [done|simpl; lia].
  - cbn [visited_slots]. rewrite elem_of_app, list_elem_of_fmap, elem_of_scanned_slots.
    rewrite visited_slots_exact. setoid_rewrite list_elem_of_singleton.
    unfold within_budget.
    intros [(s' & Hs & Hin)|(i & s' & Hs & _ & Hne & ->)];
      destruct path as [|a p']; simpl in Hs; try done; injection Hs as Ha Hp.
    + apply int_of_char_inj in Ha as ->. subst s'.
      destruct (IH p' Hin) as [Hl Hm]. simpl in *.
      rewrite decide_True by done. split; [congruence|lia].
    + apply slots_of_inj in Hp as ->. simpl.
      rewrite decide_False by congruence. rewrite mismatches_refl. split; [done|lia].
Qed.

(** Every string of 7-bit characters within the budget of the key is
    followed. *)
Lemma within_budget_visited_slots key : forall exactOnly path,
  Forall seven_bit path -> within_budget key exactOnly path ->
  slots_of path ∈ visited_slots key exactOnly.
Proof.
  intros [] path Hpath.
  { rewrite visited_slots_exact, within_budget_exact, list_elem_of_singleton.
    by intros ->. }
  revert path Hpath. induction key as [|c rest IH]; intros path Hpath [Hl Hm].
  - destruct path; [|done]. simpl. by apply list_elem_of_singleton.
  - destruct path as [|a p']; [done|]. apply Forall_cons in Hpath as [Ha Hp'].
    cbn [visited_slots]. rewrite elem_of_app, list_elem_of_fmap, elem_of_scanned_slots.
    simpl in *. destruct (decide (a = c)) as [->|Hne].
    + left. exists (slots_of p'). split; [done|]. apply IH; [done|]. split; simpl; lia.
    + right. exists (int_of_char a), (slots_of p').
      pose proof (int_of_char_seven_bit a Ha).
      split; [done|]. split; [lia|]. split; [intros He; by apply int_of_char_inj in He|].
      rewrite visited_slots_exact. apply list_elem_of_singleton. f_equal.
      apply mismatches_zero; lia.
Qed.

Lemma visited_slots_one_off key :
  visited_slots key false = slots_of key :: one_off_slots key.
Proof.
  induction key as [|c rest IH]; [reflexivity|].
  cbn [visited_slots one_off_slots]. rewrite IH, visited_slots_exact.
  rewrite fmap_cons. reflexivity.
Qed.

Lemma elem_of_one_off_scan (c : ascii) (rest : str) (p : list Z) :
  p ∈ flat_map (fun i => if i =? int_of_char c then [] else [i :: slots_of rest])
               (seqZ 0 Trie.POSSIBLE_CHARACTERS)
  <-> exists i, p = i :: slots_of rest /\ 0 <= i < 256 /\ i <> int_of_char c.
Proof.
  rewrite elem_of_flat_map. unfold Trie.POSSIBLE_CHARACTERS. split.
  - intros (i & Hi & Hp). apply elem_of_seqZ in Hi.
    destruct (Z.eqb_spec i (int_of_char c)) as [|Hne]; [by apply not_elem_of_nil in Hp|].
    apply list_elem_of_singleton in Hp as ->. exists i. split_and!; try done; lia.
  - intros (i & -> & Hi & Hne). exists i. split.
    + apply elem_of_seqZ. lia.
    + destruct (Z.eqb_spec i (int_of_char c)) as [|_]; [done|].
      by apply list_elem_of_singleton.
Qed.

(** The strings of 7-bit characters that the one-off paths spell are
    those as long as the key that differ from it at exactly one
    position. *)
Lemma elem_of_one_off_slots key : forall path,
  Forall seven_bit path ->
  slots_of path ∈ one_off_slots key
  <-> length path = length key /\ mismatches path key = 1%nat.
Proof.
  induction key as [|c rest IH]; intros path Hpath.
  - simpl. rewrite mismatches_nil_r. split; [by intros ?%not_elem_of_nil|lia].
  - cbn [one_off_slots]. rewrite elem_of_app, list_elem_of_fmap, elem_of_one_off_scan.
    destruct path as [|a p'].
    { simpl. split; [|by intros [? _]].
      intros [(s' & Hs & _)|(i & Hs & _)]; discriminate. }
    apply Forall_cons in Hpath as [Ha Hp']. simpl. split.
    + intros [(s' & [= Hac Hs] & Hin)|(i & [= Hi' Hp] & Hi & Hne)]; subst.
      * apply int_of_char_inj in Hac as ->. apply (IH p' Hp') in Hin as [Hl Hm].
        rewrite decide_True by done. split; [congruence|lia].
      * apply slots_of_inj in Hp as ->.
        rewrite decide_False by congruence. rewrite mismatches_refl. done.
    + intros [Hl Hm]. destruct (decide (a = c)) as [->|Hne].
      * left. exists (slots_of p'). split; [done|]. apply (IH p' Hp'). split; lia.
      * right. exists (int_of_char a). pose proof (int_of_char_seven_bit a Ha).
        split; [|split; [lia|intros He; by apply int_of_char_inj in He]].
        do 2 f_equal. apply mismatches_zero; lia.
Qed.

Section FindFacts.
Context {V : Type}.
Implicit Types (t : Trie.Trie V) (n : Trie.Node V) (key path : str) (v : V)
  (slots : list Z).

Lemma find_collected_slots t key exactOnly :
  Trie.find key exactOnly t
  = flat_map (values_from (Some (Trie.m_root t))) (collected_slots key exactOnly).
Proof.
  destruct key as [|c rest]; simpl.
  - by rewrite app_nil_r.
  - rewrite flat_map_fmap.
    rewrite (flat_map_agree _ (values_from (Trie.m_children (Trie.m_root t) (int_of_char c))))
      by (intros p _; apply values_from_cons).
    rewrite <- findHelper_visited_slots.
    destruct (Trie.m_children (Trie.m_root t) (int_of_char c)); [done|].
    by rewrite findHelper_None.
Qed.

Lemma elem_of_find_slots t key exactOnly v :
  v ∈ Trie.find key exactOnly t
  <-> exists slots, slots ∈ collected_slots key exactOnly
                    /\ v ∈ values_from (Some (Trie.m_root t)) slots.
Proof. by rewrite find_collected_slots, elem_of_flat_map. Qed.

(** In a trie of 7-bit keys, [find] returns the values at the admissible
    root paths, in the order of [collected]. *)
Lemma find_collected t key exactOnly :
  seven_bit_trie t ->
  Trie.find key exactOnly t = flat_map (values_at t) (collected key exactOnly).
Proof.
  intros Ht. destruct key as [|c rest]; simpl.
  - by rewrite app_nil_r.
  - rewrite flat_map_fmap. unfold values_at.
    rewrite (flat_map_agree _
               (fun p => values_from (Trie.m_children (Trie.m_root t) (int_of_char c))
                           (slots_of p)))
      by (intros p _; apply values_from_cons).
    rewrite <- findHelper_visited by (by apply seven_bit_below_child).
    destruct (Trie.m_children (Trie.m_root t) (int_of_char c)); [done|].
    by rewrite findHelper_None.
Qed.

Lemma elem_of_collected key exactOnly path :
  key <> [] -> path ∈ collected key exactOnly <-> admissible key exactOnly path.
Proof.
  destruct key as [|c rest]; [done|]. intros _. simpl.
  rewrite list_elem_of_fmap. setoid_rewrite elem_of_visited.
  unfold admissible, within_budget. split.
  - intros (p & -> & Hl & Hm). simpl. split_and!; [congruence|done|done].
  - intros (Hl & Hh & Hm). destruct path as [|a p]; [done|].
    simpl in *. injection Hh as ->. exists p. split_and!; [done|lia|done].
Qed.

Lemma NoDup_collected key exactOnly : NoDup (collected key exactOnly).
Proof.
  destruct key as [|c rest]; simpl; [apply NoDup_singleton|].
  apply (NoDup_fmap_2 _), NoDup_visited.
Qed.

(** A string whose slots [find] follows is admissible for the key. *)
Lemma collected_slots_admissible key exactOnly path :
  slots_of path ∈ collected_slots key exactOnly -> admissible key exactOnly path.
Proof.
  destruct key as [|c rest]; simpl.
  - rewrite list_elem_of_singleton. destruct path; [|done].
    intros _. unfold admissible. simpl. split_and!; [done|done|lia].
  - rewrite list_elem_of_fmap. intros (s' & Hs & Hin).
    destruct path as [|a p']; [done|]. simpl in Hs. injection Hs as Ha Hs. subst s'.
    apply int_of_char_inj in Ha as ->.
    apply visited_slots_within_budget in Hin as [Hl Hm].
    unfold admissible. simpl. split_and!; [congruence|done|done].
Qed.

(** Every admissible string of 7-bit characters is followed. *)
Lemma admissible_collected_slots key exactOnly path :
  Forall seven_bit path -> admissible key exactOnly path ->
  slots_of path ∈ collected_slots key exactOnly.
Proof.
  intros Hpath (Hl & Hh & Hm). destruct key as [|c rest]; simpl.
  - destruct path; [|done]. by apply list_elem_of_singleton.
  - destruct path as [|a p']; [done|]. simpl in *. injection Hh as ->.
    apply Forall_cons in Hpath as [_ Hp'].
    apply list_elem_of_fmap. exists (slots_of p'). split; [done|].
    apply within_budget_visited_slots; [done|]. split; [lia|done].
Qed.

Lemma key_collected_slots key exactOnly : slots_of key ∈ collected_slots key exactOnly.
Proof.
  destruct key as [|c rest]; simpl; [by apply list_elem_of_singleton|].
  apply list_elem_of_fmap. exists (slots_of rest). split; [done|].
  destruct exactOnly.
  - rewrite visited_slots_exact. by apply list_elem_of_singleton.
  - rewrite visited_slots_one_off. by left.
Qed.

Lemma collected_slots_exact key : collected_slots key true = [slots_of key].
Proof. destruct key; simpl; [done|]. by rewrite visited_slots_exact. Qed.

(** An exact lookup returns the values at the end of the key's own path. *)
Lemma find_exact_values t key : Trie.find key true t = values_at t key.
Proof.
  rewrite find_collected_slots, collected_slots_exact. simpl. by rewrite app_nil_r.
Qed.

(** *** [insert] seen through the values at each path *)

Lemma values_from_newNode slots : values_from (V:=V) (Some Trie.newNode) slots = [].
Proof. destruct slots; [reflexivity|]. rewrite values_from_cons. apply values_from_None. Qed.

Lemma values_from_insertFrom key v : forall n slots,
  values_from (Some (Trie.insertFrom key v n)) slots
  = values_from (Some n) slots ++ (if decide (slots = slots_of key) then [v] else []).
Proof.
  induction key as [|c rest IH]; intros n slots.
  - destruct slots as [|i p]; simpl; [reflexivity|].
    rewrite !values_from_cons. simpl. by rewrite app_nil_r.
  - destruct slots as [|i p].
    + unfold values_from. simpl. by rewrite app_nil_r.
    + rewrite !values_from_cons. cbn [Trie.insertFrom Trie.m_children].
      destruct (Z.eqb_spec i (int_of_char c)) as [->|Hne].
      * rewrite IH.
        destruct (Trie.m_children n (int_of_char c)) as [child|].
        -- destruct (decide (p = slots_of rest)) as [->|Hp].
           ++ by rewrite decide_True.
           ++ rewrite decide_False; [done|]. simpl. congruence.
        -- rewrite values_from_newNode, values_from_None.
           destruct (decide (p = slots_of rest)) as [->|Hp].
           ++ by rewrite decide_True.
           ++ rewrite decide_False; [done|]. simpl. congruence.
      * rewrite decide_False; [by rewrite app_nil_r|]. simpl. congruence.
Qed.

Lemma values_at_insert t key v path :
  values_at (Trie.insert key v t) path
  = values_at t path ++ (if decide (path = key) then [v] else []).
Proof.
  unfold values_at. simpl. rewrite values_from_insertFrom. f_equal.
  destruct (decide (path = key)) as [->|Hne].
  - by rewrite decide_True.
  - rewrite decide_False; [done|]. intros He. by apply slots_of_inj in He.
Qed.

Lemma values_at_empty path : values_at (V:=V) Trie.empty path = [].
Proof. apply values_from_newNode. Qed.

(** After an insertion, a lookup returns what it returned before and, when
    the path of the inserted key is one of those it follows, the new
    value. *)
Lemma elem_of_find_insert t key exactOnly key' v' v :
  v ∈ Trie.find key exactOnly (Trie.insert key' v' t)
  <-> v ∈ Trie.find key exactOnly t
      \/ (v = v' /\ slots_of key' ∈ collected_slots key exactOnly).
Proof.
  rewrite !elem_of_find_slots. simpl. setoid_rewrite values_from_insertFrom.
  setoid_rewrite elem_of_app. split.
  - intros (p & Hp & [Hv|Hv]); [left; eauto|].
    destruct (decide (p = slots_of key')) as [->|]; [|by apply not_elem_of_nil in Hv].
    apply list_elem_of_singleton in Hv. right. done.
  - intros [(p & Hp & Hv)|[-> Hk]]; [eauto|].
    exists (slots_of key'). split; [done|]. right. rewrite decide_True by done.
    by apply list_elem_of_singleton.
Qed.


(** *** Tries of 7-bit keys *)

Lemma seven_bit_trie_empty : seven_bit_trie (V:=V) Trie.empty.
Proof.
  intros [|i slots] H; [constructor|]. simpl in H. by rewrite descend_None in H.
Qed.

Lemma seven_bit_below_insertFrom key v : forall n,
  Forall seven_bit key -> seven_bit_below (Some n) ->
  seven_bit_below (Some (Trie.insertFrom key v n)).
Proof.
  induction key as [|c rest IH]; intros n Hkey Hn [|i slots] Hs; try constructor.
  - specialize (Hn (i :: slots) Hs). by apply Forall_cons in Hn as [? _].
  - specialize (Hn (i :: slots) Hs). by apply Forall_cons in Hn as [_ ?].
  - apply Forall_cons in Hkey as [Hc Hrest]. simpl in Hs.
    destruct (Z.eqb_spec i (int_of_char c)) as [->|Hne].
    + by apply int_of_char_seven_bit.
    + specialize (Hn (i :: slots) Hs). by apply Forall_cons in Hn as [? _].
  - apply Forall_cons in Hkey as [Hc Hrest]. simpl in Hs.
    destruct (Z.eqb_spec i (int_of_char c)) as [->|Hne].
    + destruct (Trie.m_children n (int_of_char c)) as [child|] eqn:Hchild.
      * apply (IH child Hrest); [|done]. rewrite <- Hchild.
        by apply seven_bit_below_child.
      * apply (IH Trie.newNode Hrest); [|done]. apply seven_bit_trie_empty.
    + specialize (Hn (i :: slots) Hs). by apply Forall_cons in Hn as [_ ?].
Qed.

Lemma seven_bit_trie_insert t key v :
  Forall seven_bit key -> seven_bit_trie t -> seven_bit_trie (Trie.insert key v t).
Proof. intros Hkey Ht. by apply seven_bit_below_insertFrom. Qed.

(** *** Tries whose values sit at paths of characters *)

Lemma char_keyed_empty : char_keyed (V:=V) Trie.empty.
Proof.
  intros slots v Hv. simpl in Hv. rewrite values_from_newNode in Hv.
  by apply not_elem_of_nil in Hv.
Qed.

Lemma char_keyed_insert t key v : char_keyed t -> char_keyed (Trie.insert key v t).
Proof.
  intros Ht slots v0 Hv. simpl in Hv. rewrite values_from_insertFrom in Hv.
  apply elem_of_app in Hv as [Hv|Hv]; [by apply (Ht slots v0)|].
  case_decide as Hs; [|by apply not_elem_of_nil in Hv]. by exists key.
Qed.

(** In such a trie, whatever a lookup returns is stored at the end of an
    admissible string. *)
Lemma elem_of_find_keyed t key exactOnly v :
  char_keyed t -> v ∈ Trie.find key exactOnly t ->
  exists path, admissible key exactOnly path /\ v ∈ values_at t path.
Proof.
  intros Ht Hv. apply elem_of_find_slots in Hv as (slots & Hs & Hv).
  destruct (Ht slots v Hv) as [path ->]. exists path. split; [|done].
  by apply collected_slots_admissible.
Qed.
End FindFacts.

(** C1: in a trie that holds keys of 7-bit characters, and for a non-empty
    key of such characters, [find] returns exactly the values stored at
    the ends of the admissible root paths: the paths as long as the key
    that start with its first character and, past it, differ from the key
    in at most one position ([exactOnly] false) or in none ([exactOnly]
    true).  Each such path contributes its values once; when the root
    has no child for the first character the result is empty.  (The
    7-bit characters, which include the letters of DNA, are those whose
    [char] value is an index inside the child array.) *)
Theorem find_collects_admissible_paths {V} (t : Trie.Trie V) (key : str)
    (exactOnly : bool) :
  key <> [] ->
  Forall seven_bit key ->
  seven_bit_trie t ->
  (exists paths, NoDup paths
     /\ (forall path, path ∈ paths <-> admissible key exactOnly path)
     /\ Trie.find key exactOnly t = flat_map (values_at t) paths)
  /\ (forall v, v ∈ Trie.find key exactOnly t
                <-> exists path, admissible key exactOnly path /\ v ∈ values_at t path)
  /\ (forall c0, head key = Some c0 ->
        Trie.m_children (Trie.m_root t) (int_of_char c0) = None ->
        Trie.find key exactOnly t = []).
Proof.
  intros Hkey _ Ht. split_and!.
  - exists (collected key exactOnly). split_and!.
    + apply NoDup_collected.
    + intros path. by apply elem_of_collected.
    + by apply find_collected.
  - intros v. rewrite (find_collected t key exactOnly Ht), elem_of_flat_map.
    by setoid_rewrite (elem_of_collected _ _ _ Hkey).
  - intros c0 Hc0 Hnone. destruct key as [|c rest]; [done|].
    injection Hc0 as ->. simpl. by rewrite Hnone.
Qed.

Lemma find_collects_admissible_paths_witness :
  7 ∈ Trie.find $"ACG" false (Trie.insert $"ATG" 7 Trie.empty)
  <-> exists path, admissible $"ACG" false path
                   /\ 7 ∈ values_at (Trie.insert $"ATG" 7 Trie.empty) path.
Proof.
  pose proof (find_collects_admissible_paths (Trie.insert $"ATG" 7 Trie.empty)
                $"ACG" false) as H.
  apply H.
  - discriminate.
  - apply (bool_decide_unpack _). reflexivity.
  - apply seven_bit_trie_insert; [|apply seven_bit_trie_empty].
    apply (bool_decide_unpack _). reflexivity.
Defined.

(** Outside the 7-bit range the index of a character is negative, and what
    is stored under it is out of the reach of the loop over the slots:
    the key "A" followed by the byte 201 differs from "AB" at one
    position, yet the approximate lookup of "AB" does not return its
    value. *)
Example high_byte_is_out_of_reach :
  Trie.find $"AB" false
    (Trie.insert $"AB" 2 (Trie.insert ["A"%char; ascii_of_nat 201] 1 Trie.empty))
  = [2]
  /\ admissible $"AB" false ["A"%char; ascii_of_nat 201]
  /\ Trie.find ["A"%char; ascii_of_nat 201] true
       (Trie.insert $"AB" 2 (Trie.insert ["A"%char; ascii_of_nat 201] 1 Trie.empty))
     = [1].
Proof.
  split_and!; [vm_compute; reflexivity| |vm_compute; reflexivity].
  unfold admissible. split_and!; [done|done|]. vm_compute. lia.
Qed.

(** ** Trie: insertions and lookups *)

Section TrieInsertLookup.
Context {V : Type}.
Implicit Types (t : Trie.Trie V) (key : str) (v : V).



(** X7: for keys of 7-bit characters and in either mode, a lookup after an
    insertion returns the values it returned before and, exactly when the
    inserted key is admissible for the key looked up (same length, same
    first character, within the mismatch budget), the inserted value;
    when it is not, the result is unchanged. *)
Theorem find_after_insert t key exactOnly key' v' :
  Forall seven_bit key ->
  Forall seven_bit key' ->
  (forall v, v ∈ Trie.find key exactOnly (Trie.insert key' v' t)
             <-> v ∈ Trie.find key exactOnly t
                 \/ (v = v' /\ admissible key exactOnly key'))
  /\ (~ admissible key exactOnly key' ->
      Trie.find key exactOnly (Trie.insert key' v' t) = Trie.find key exactOnly t).
Proof.
  intros _ Hkey'. split.
  - intros v. rewrite elem_of_find_insert. split.
    + intros [?|[-> Hin]]; [by left|]. right. split; [done|].
      by apply collected_slots_admissible.
    + intros [?|[-> Hadm]]; [by left|]. right. split; [done|].
      by apply admissible_collected_slots.
  - intros Hnot. rewrite !find_collected_slots. apply flat_map_agree. intros slots Hs.
    simpl. rewrite values_from_insertFrom. rewrite decide_False; [by rewrite app_nil_r|].
    intros ->. by apply Hnot, collected_slots_admissible.
Qed.

Lemma trie_of_snoc (kvs : list (str * V)) kv :
  trie_of (kvs ++ [kv]) = Trie.insert (fst kv) (snd kv) (trie_of kvs).
Proof. unfold trie_of. by rewrite foldl_snoc. Qed.

(** What a trie filled by insertions holds at the end of each path. *)
Lemma values_from_trie_of (kvs : list (str * V)) (slots : list Z) :
  values_from (Some (Trie.m_root (trie_of kvs))) slots
  = snd <$> filter (fun kv => slots = slots_of (fst kv)) kvs.
Proof.
  induction kvs as [|kv kvs IH] using rev_ind.
  - apply values_from_newNode.
  - rewrite trie_of_snoc. simpl. rewrite values_from_insertFrom, IH, filter_app, fmap_app.
    f_equal. rewrite filter_cons, filter_nil. by case_decide.
Qed.

(** X8: in a trie filled by insertions of keys of 7-bit characters, the
    approximate lookup of such a key returns the values of the exact
    lookup first, in the same order, followed by the values inserted
    under the keys that differ from it at exactly one position past the
    first character, and by nothing else. *)
Theorem find_exact_is_prefix_of_approximate (kvs : list (str * V)) key :
  Forall seven_bit key ->
  Forall (fun kv => Forall seven_bit (fst kv)) kvs ->
  exists extra,
    Trie.find key false (trie_of kvs) = Trie.find key true (trie_of kvs) ++ extra
    /\ forall v, v ∈ extra
         <-> exists key', (key', v) ∈ kvs
               /\ length key' = length key /\ head key' = head key
               /\ mismatches (tail key') (tail key) = 1%nat.
Proof.
  intros _ Hkvs. rewrite Forall_forall in Hkvs.
  rewrite !find_collected_slots, collected_slots_exact.
  destruct key as [|c rest].
  - exists []. split; [simpl; by rewrite !app_nil_r|]. intros v. split; [by intros ?%not_elem_of_nil|].
    intros (key' & _ & Hl & _ & Hm). by destruct key'.
  - exists (flat_map (values_from (Some (Trie.m_root (trie_of kvs))))
              ((int_of_char c ::.) <$> one_off_slots rest)).
    split.
    { cbn [collected_slots]. rewrite visited_slots_one_off. simpl.
      by rewrite app_nil_r. }
    intros v. rewrite elem_of_flat_map. setoid_rewrite list_elem_of_fmap.
    setoid_rewrite values_from_trie_of. setoid_rewrite list_elem_of_fmap.
    setoid_rewrite list_elem_of_filter. split.
    + intros (slots & (s' & -> & Hs') & [key' v0] & -> & Hk & Hin). simpl in *.
      exists key'. split; [done|]. destruct key' as [|a p']; [done|].
      simpl in Hk. injection Hk as Ha ->. apply int_of_char_inj in Ha as <-.
      specialize (Hkvs _ Hin). simpl in Hkvs. apply Forall_cons in Hkvs as [_ Hp'].
      apply (elem_of_one_off_slots rest p' Hp') in Hs' as [Hl Hm].
      simpl. split_and!; [congruence|done|done].
    + intros (key' & Hin & Hl & Hh & Hm). destruct key' as [|a p']; [done|].
      simpl in *. injection Hh as ->.
      specialize (Hkvs _ Hin). simpl in Hkvs. apply Forall_cons in Hkvs as [_ Hp'].
      exists (int_of_char c :: slots_of p'). split.
      * exists (slots_of p'). split; [done|].
        apply (elem_of_one_off_slots rest p' Hp'). split; [lia|done].
      * exists (c :: p', v). split_and!; [done|done|done].
Qed.


(** X10: in a trie filled by insertions of keys of 7-bit characters, a
    lookup of such a key in either mode returns a value if and only if it
    was inserted under a key that is admissible for the key looked up:
    nothing that was not inserted, and nothing inserted under a key of
    another length, another first character, or beyond the mismatch
    budget. *)
Theorem find_trie_of (kvs : list (str * V)) key exactOnly v :
  Forall seven_bit key ->
  Forall (fun kv => Forall seven_bit (fst kv)) kvs ->
  v ∈ Trie.find key exactOnly (trie_of kvs)
  <-> exists key', (key', v) ∈ kvs /\ admissible key exactOnly key'.
Proof.
  intros _ Hkvs. rewrite Forall_forall in Hkvs.
  rewrite elem_of_find_slots. setoid_rewrite values_from_trie_of.
  setoid_rewrite list_elem_of_fmap. setoid_rewrite list_elem_of_filter. split.
  - intros (slots & Hs & [key' v0] & -> & -> & Hin). simpl in *.
    exists key'. split; [done|]. by apply collected_slots_admissible.
  - intros (key' & Hin & Hadm). exists (slots_of key'). split.
    + apply admissible_collected_slots; [|done]. by apply (Hkvs _ Hin).
    + exists (key', v). split_and!; [done|done|done].
Qed.
End TrieInsertLookup.

Lemma find_after_insert_witness :
  7 ∈ Trie.find $"ACG" false (Trie.insert $"ATG" 7 (Trie.insert $"ACG" 5 Trie.empty))
  <-> 7 ∈ Trie.find $"ACG" false (Trie.insert $"ACG" 5 Trie.empty)
      \/ (7 = 7 /\ admissible $"ACG" false $"ATG").
Proof.
  apply (find_after_insert (Trie.insert $"ACG" 5 Trie.empty) $"ACG" false $"ATG" 7).
  - apply (bool_decide_unpack _). reflexivity.
  - apply (bool_decide_unpack _). reflexivity.
Defined.

Lemma find_exact_is_prefix_of_approximate_witness :
  exists extra,
    Trie.find $"ACG" false (trie_of [($"ATG", 7); ($"ACG", 5)])
    = Trie.find $"ACG" true (trie_of [($"ATG", 7); ($"ACG", 5)]) ++ extra
    /\ forall v, v ∈ extra
         <-> exists key', (key', v) ∈ [($"ATG", 7); ($"ACG", 5)]
               /\ length key' = length $"ACG" /\ head key' = head $"ACG"
               /\ mismatches (tail key') (tail $"ACG") = 1%nat.
Proof.
  apply (find_exact_is_prefix_of_approximate [($"ATG", 7); ($"ACG", 5)] $"ACG").
  - apply (bool_decide_unpack _). reflexivity.
  - apply (bool_decide_unpack _). reflexivity.
Defined.

Lemma find_trie_of_witness :
  7 ∈ Trie.find $"ACG" false (trie_of [($"ATG", 7); ($"ACG", 5)])
  <-> exists key', (key', 7) ∈ [($"ATG", 7); ($"ACG", 5)] /\ admissible $"ACG" false key'.
Proof.
  apply (find_trie_of [($"ATG", 7); ($"ACG", 5)] $"ACG" false 7).
  - apply (bool_decide_unpack _). reflexivity.
  - apply (bool_decide_unpack _). reflexivity.
Defined.

(** ** GenomeMatcher: indexing *)

Import GenomeMatcher.

Lemma extract_or_error_Some g position length s :
  Genome.extract_or_error g position length = s -> s <> Genome.error ->
  Genome.extract g position length = Some s.
Proof.
  unfold Genome.extract_or_error. destruct (Genome.extract g position length); congruence.
Qed.

Lemma extract_past_end g position length :
  Genome.length g <= position -> Genome.extract g position length = None.
Proof.
  intros Hp. unfold Genome.extract, Genome.length in *.
  destruct (Z.ltb_spec position 0); [done|].
  rewrite size_t_of_int_nonneg by lia.
  destruct (Z.leb_spec (size (m_sequence g)) position); [done|lia].
Qed.

Section AddGenomeLoop.
Variables (genome : GenomeImpl) (k gid : Z).

(** The loop leaves by its [break] within [length + 1] iterations: more fuel
    than that does not change the result. *)
Lemma addGenome_loop_fuel fuel : forall extra i trie,
  0 <= i -> Genome.length genome - i < Z.of_nat fuel ->
  addGenome_loop (fuel + extra) genome k gid i trie
  = addGenome_loop fuel genome k gid i trie.
Proof.
  induction fuel as [|fuel IH]; intros extra i trie Hi Hfuel.
  - destruct extra as [|extra]; [reflexivity|]. simpl.
    unfold Genome.extract_or_error. rewrite extract_past_end by lia.
    by rewrite decide_True.
  - simpl. case_decide; [reflexivity|]. apply IH; lia.
Qed.

Lemma addGenome_loop_enough extra trie :
  addGenome_loop (S (length (m_sequence genome)) + extra) genome k gid 0 trie
  = addGenome_loop (S (length (m_sequence genome))) genome k gid 0 trie.
Proof. apply addGenome_loop_fuel; unfold Genome.length, size; lia. Qed.

(** What a run of the loop adds at each path. *)
Lemma addGenome_loop_values fuel : forall i trie path v,
  v ∈ values_at (addGenome_loop fuel genome k gid i trie) path ->
  v ∈ values_at trie path
  \/ exists pos, v = (gid, pos) /\ i <= pos /\ Genome.extract genome pos k = Some path.
Proof.
  induction fuel as [|fuel IH]; intros i trie path v Hv; [by left|].
  simpl in Hv. case_decide as Herr; [by left|].
  apply IH in Hv as [Hv|(pos & -> & Hpos & He)].
  - rewrite values_at_insert in Hv. apply elem_of_app in Hv as [Hv|Hv]; [by left|].
    case_decide as Hp; [|by apply not_elem_of_nil in Hv].
    apply list_elem_of_singleton in Hv as ->. right. exists i. split_and!; [done|lia|].
    subst path. by apply extract_or_error_Some.
  - right. exists pos. split_and!; [done|lia|done].
Qed.

Lemma addGenome_loop_keyed fuel : forall i trie,
  char_keyed trie -> char_keyed (addGenome_loop fuel genome k gid i trie).
Proof.
  induction fuel as [|fuel IH]; intros i trie Ht; [done|].
  simpl. case_decide; [done|]. by apply IH, char_keyed_insert.
Qed.

Lemma addGenome_loop_keeps fuel : forall i trie key exactOnly v,
  v ∈ Trie.find key exactOnly trie ->
  v ∈ Trie.find key exactOnly (addGenome_loop fuel genome k gid i trie).
Proof.
  induction fuel as [|fuel IH]; intros i trie key exactOnly v Hv; [done|].
  simpl. case_decide; [done|]. apply IH, elem_of_find_insert. by left.
Qed.

(** Every window of [k] bases from offset [i] on is indexed, as long as
    none of them spells the sentinel. *)
Lemma addGenome_loop_complete fuel : forall i trie j,
  1 <= k -> 0 <= i -> Genome.length genome - i < Z.of_nat fuel ->
  (forall p, segment (m_sequence genome) p k <> Genome.error) ->
  i <= j <= Genome.length genome - k ->
  (gid, j) ∈ Trie.find (segment (m_sequence genome) j k) true
               (addGenome_loop fuel genome k gid i trie).
Proof.
  induction fuel as [|fuel IH]; intros i trie j Hk Hi Hfuel Hsent Hj; [lia|].
  simpl. unfold Genome.extract_or_error.
  rewrite extract_in_range by (unfold in_range; lia).
  rewrite decide_False by apply Hsent.
  destruct (decide (j = i)) as [->|Hne].
  - apply addGenome_loop_keeps, elem_of_find_insert. right.
    split; [done|]. apply key_collected_slots.
  - apply IH; [done|lia|lia|done|lia].
Qed.
End AddGenomeLoop.

Lemma bases_never_spell_error s pos len :
  forallb is_base s = true -> segment s pos len <> Genome.error.
Proof.
  intros Hs He. rewrite forallb_forall in Hs.
  assert (Hin : In "e"%char (segment s pos len)) by (rewrite He; by left).
  unfold segment in Hin.
  apply list_elem_of_In, subseteq_take, subseteq_drop, list_elem_of_In, Hs in Hin.
  discriminate.
Qed.

Lemma addGenome_trie g m :
  m_sequencedDNA (addGenome g m)
  = addGenome_loop (S (length (m_sequence g))) g (m_minSearchLength m)
      (size (m_genomeLibrary m ++ [g])) 0 (m_sequencedDNA m).
Proof. reflexivity. Qed.

Lemma addGenome_library g m : m_genomeLibrary (addGenome g m) = m_genomeLibrary m ++ [g].
Proof. reflexivity. Qed.

Lemma genome_of_addGenome_last g m :
  genome_of (addGenome g m) (size (m_genomeLibrary (addGenome g m))) = Some g.
Proof.
  unfold genome_of, size. simpl. rewrite length_app. simpl.
  replace (Z.to_nat (Z.of_nat (length (m_genomeLibrary m) + 1) - 1))
    with (length (m_genomeLibrary m)) by lia.
  by rewrite lookup_app_r, Nat.sub_diag by lia.
Qed.

(** C5: after [addGenome(g)] on a matcher with minimum search length
    [k >= 1], [g] is the last genome of the library and carries the number
    [gid] of genomes now in it; for every offset [i] in [0 .. g.length - k]
    the exact lookup of the [k] bases of [g] from [i] contains the seed
    [(gid, i)]; and when [g.length < k] the index is unchanged.  The
    genome is one of the data model: a sequence of base letters. *)
Theorem addGenome_indexes_every_window (m : GenomeMatcherImpl) (g : GenomeImpl) (i : Z) :
  1 <= m_minSearchLength m ->
  forallb is_base (m_sequence g) = true ->
  m_genomeLibrary (addGenome g m) = m_genomeLibrary m ++ [g]
  /\ genome_of (addGenome g m) (size (m_genomeLibrary (addGenome g m))) = Some g
  /\ (0 <= i <= Genome.length g - m_minSearchLength m ->
      (size (m_genomeLibrary (addGenome g m)), i)
      ∈ Trie.find (segment (m_sequence g) i (m_minSearchLength m)) true
          (m_sequencedDNA (addGenome g m)))
  /\ (Genome.length g < m_minSearchLength m ->
      m_sequencedDNA (addGenome g m) = m_sequencedDNA m).
Proof.
  intros Hk Hbases. split_and!.
  - reflexivity.
  - apply genome_of_addGenome_last.
  - intros Hi. rewrite addGenome_trie, addGenome_library.
    apply addGenome_loop_complete; try lia.
    + unfold Genome.length, size. lia.
    + intros p. by apply bases_never_spell_error.
  - intros Hshort. rewrite addGenome_trie. cbn [addGenome_loop].
    unfold Genome.extract_or_error.
    rewrite extract_out_of_range; [by rewrite decide_True|lia|].
    unfold in_range. lia.
Qed.

Lemma addGenome_indexes_every_window_witness :
  (1, 1) ∈ Trie.find $"CGT" true (m_sequencedDNA (addGenome (Genome "A" $"ACGT") (new 3))).
Proof.
  pose proof (addGenome_indexes_every_window (new 3) (Genome "A" $"ACGT") 1) as H.
  destruct H as (_ & _ & H & _).
  - simpl. lia.
  - reflexivity.
  - apply H. vm_compute. split; discriminate.
Defined.

(** ** GenomeMatcher: the index only holds seeds of the library *)

Lemma genome_of_app_l m g gid g' :
  genome_of m gid = Some g' -> genome_of (addGenome g m) gid = Some g'.
Proof.
  unfold genome_of. simpl. intros H. rewrite lookup_app_l; [done|].
  by apply lookup_lt_Some in H.
Qed.

Lemma seeds_in_library_new k : seeds_in_library (new k).
Proof.
  split; [apply char_keyed_empty|].
  intros path gid pos Hin. simpl in Hin. rewrite values_at_empty in Hin.
  by apply not_elem_of_nil in Hin.
Qed.

Lemma seeds_in_library_addGenome g m :
  seeds_in_library m -> seeds_in_library (addGenome g m).
Proof.
  intros [Hkeyed Hm]. split; [rewrite addGenome_trie; by apply addGenome_loop_keyed|].
  intros path gid pos Hin. rewrite addGenome_trie in Hin.
  apply addGenome_loop_values in Hin as [Hin|(pos' & [= -> ->] & _ & He)].
  - destruct (Hm _ _ _ Hin) as ([H1 H2] & g' & Hg' & He). split.
    + simpl. unfold size in *. rewrite length_app. simpl. lia.
    + exists g'. split; [by apply genome_of_app_l|done].
  - split.
    + pose proof (size_nonneg (m_genomeLibrary m)). simpl.
      unfold size in *. rewrite length_app. simpl. lia.
    + exists g. split; [|done].
      apply genome_of_addGenome_last.
Qed.

Lemma build_snoc k gs g : build k (gs ++ [g]) = addGenome g (build k gs).
Proof. unfold build. by rewrite foldl_snoc. Qed.

Lemma build_library k gs : m_genomeLibrary (build k gs) = gs.
Proof.
  induction gs as [|g gs IH] using rev_ind; [reflexivity|].
  by rewrite build_snoc, addGenome_library, IH.
Qed.

Lemma build_minSearchLength k gs : m_minSearchLength (build k gs) = k.
Proof.
  induction gs as [|g gs IH] using rev_ind; [reflexivity|].
  by rewrite build_snoc.
Qed.

Lemma seeds_in_library_build k gs : seeds_in_library (build k gs).
Proof.
  unfold build. induction gs as [|g gs IH] using rev_ind; [apply seeds_in_library_new|].
  rewrite foldl_snoc. by apply seeds_in_library_addGenome.
Qed.

(** ** GenomeMatcher: the extension loop *)

(** The loop ends within [fragment.size() + 1 - actualLength] iterations:
    more fuel than that does not change the result. *)
Lemma grow_fuel fuel : forall extra genome fragment currentPosition snipped actualLength,
  0 <= actualLength -> size fragment - actualLength < Z.of_nat fuel ->
  grow (fuel + extra) genome fragment currentPosition snipped actualLength
  = grow fuel genome fragment currentPosition snipped actualLength.
Proof.
  induction fuel as [|fuel IH]; intros extra genome fragment pos snipped n Hn Hfuel.
  - destruct extra as [|extra]; [reflexivity|]. simpl.
    rewrite size_t_of_int_nonneg by done.
    destruct (Z.leb_spec n (size fragment)); [lia|reflexivity].
  - simpl. repeat case_match; try reflexivity; apply IH; lia.
Qed.

Lemma actualLength_of_enough extra k genome fragment exactOnly currentPosition :
  0 <= k ->
  grow (S (length fragment) + extra) genome fragment currentPosition exactOnly k
  = actualLength_of k genome fragment exactOnly currentPosition.
Proof. intros Hk. apply grow_fuel; unfold size; lia. Qed.

(** ** GenomeMatcher: the best match per genome *)

Section BestMatches.
Variables (m : GenomeMatcherImpl) (fragment : str) (minimumLength : Z) (exactOnly : bool).

Local Abbreviation visit := (visit_seed m fragment minimumLength exactOnly).
Local Abbreviation candidate := (candidate_of m fragment exactOnly).
Local Abbreviation candidate_in found :=
  (candidate_among found m fragment minimumLength exactOnly).
Local Abbreviation best_so_far := (best_so_far m fragment minimumLength exactOnly).

Lemma visit_seed_candidate best seed :
  visit best seed
  = match candidate seed with
    | Some d => if DNAMatch.length d <? minimumLength then best
                else keep_best seed.1 d best
    | None => best
    end.
Proof.
  unfold visit_seed, candidate_of, genome_of.
  by destruct (m_genomeLibrary m !! Z.to_nat (seed.1 - 1)).
Qed.

Lemma candidate_among_snoc seen seed gid d :
  candidate_in (seen ++ [seed]) gid d
  <-> candidate_in seen gid d
      \/ (seed.1 = gid /\ candidate seed = Some d /\ minimumLength <= DNAMatch.length d).
Proof.
  unfold candidate_among. setoid_rewrite elem_of_app.
  setoid_rewrite list_elem_of_singleton. destruct seed as [g p]. simpl. split.
  - intros (pos & [Hin|[= -> ->]] & Hc & Hl); [left; eauto|right; eauto].
  - intros [(pos & Hin & Hc & Hl)|(-> & Hc & Hl)]; [exists pos; eauto|exists p; eauto].
Qed.

Lemma best_so_far_nil : best_so_far ∅ [].
Proof.
  intros gid. split.
  - intros d Hd. by rewrite lookup_empty in Hd.
  - intros d' (pos & Hin & _). by apply not_elem_of_nil in Hin.
Qed.

Lemma best_so_far_visit best seen seed :
  best_so_far best seen -> best_so_far (visit best seed) (seen ++ [seed]).
Proof.
  intros Hinv gid. destruct (Hinv gid) as [Hsound Hmax].
  setoid_rewrite candidate_among_snoc. rewrite visit_seed_candidate.
  destruct (candidate seed) as [d0|] eqn:Hc.
  2: { split; [intros d Hd; left; by apply Hsound|].
       intros d' [Hd'|(_ & [=] & _)]. by apply Hmax. }
  destruct (Z.ltb_spec (DNAMatch.length d0) minimumLength) as [Hshort|Hlong].
  { split; [intros d Hd; left; by apply Hsound|].
    intros d' [Hd'|(_ & [= <-] & Hd')]; [by apply Hmax|lia]. }
  unfold keep_best. destruct (decide (seed.1 = gid)) as [Hg|Hg].
  - rewrite Hg. destruct (best !! gid) as [old|] eqn:Hold.
    + destruct (Z.ltb_spec (DNAMatch.length old) (DNAMatch.length d0)) as [Hlt|Hge].
      * rewrite lookup_insert_eq. split.
        -- intros d [= <-]. by right.
        -- intros d' [Hd'|(_ & [= <-] & _)]; [|by eauto with lia].
           destruct (Hmax d' Hd') as (d & [= <-] & Hle). exists d0. split; [done|lia].
      * rewrite Hold. split.
        -- intros d [= <-]. left. by apply Hsound.
        -- intros d' [Hd'|(_ & [= <-] & _)]; [by apply Hmax|]. exists old. split; [done|lia].
    + rewrite lookup_insert_eq. split.
      * intros d [= <-]. by right.
      * intros d' [Hd'|(_ & [= <-] & _)]; [|by eauto with lia].
        destruct (Hmax d' Hd') as (d & [=] & _).
  - assert (Hsame : forall b' : gmap Z DNAMatch.t,
               b' = best \/ b' = <[seed.1:=d0]> best -> b' !! gid = best !! gid).
    { intros b' [->| ->]; [done|]. by rewrite lookup_insert_ne. }
    assert (Heq : match best !! seed.1 with
                  | Some old => if DNAMatch.length old <? DNAMatch.length d0
                                then <[seed.1:=d0]> best else best
                  | None => <[seed.1:=d0]> best
                  end !! gid = best !! gid).
    { apply Hsame. repeat case_match; auto. }
    rewrite Heq. split; [intros d Hd; left; by apply Hsound|].
    intros d' [Hd'|(Hd' & _)]; [by apply Hmax|done].
Qed.

Lemma best_so_far_fold found : forall best seen,
  best_so_far best seen -> best_so_far (fold_left visit found best) (seen ++ found).
Proof.
  induction found as [|seed found IH]; intros best seen Hinv; simpl.
  - by rewrite app_nil_r.
  - rewrite cons_middle, app_assoc.
    apply IH. by apply best_so_far_visit.
Qed.

Lemma best_matches_best found :
  best_so_far (best_matches m fragment minimumLength exactOnly found) found.
Proof. apply (best_so_far_fold found ∅ []), best_so_far_nil. Qed.
End BestMatches.

(** The outcome of [findGenomesWithThisDNA] once both entry tests pass. *)
Lemma findGenomesWithThisDNA_searches m fragment minimumLength exactOnly matches0 :
  size_t_of_int minimumLength <= size fragment ->
  m_minSearchLength m <= minimumLength ->
  findGenomesWithThisDNA m fragment minimumLength exactOnly matches0
  = let listed :=
      (map_to_list (best_matches m fragment minimumLength exactOnly
                      (seeds m fragment exactOnly))).*2 in
    (negb (size listed =? 0), listed).
Proof.
  intros H1 H2. unfold findGenomesWithThisDNA, seeds.
  destruct (Z.ltb_spec (size fragment) (size_t_of_int minimumLength)); [lia|].
  destruct (Z.ltb_spec minimumLength (m_minSearchLength m)); [lia|].
  destruct (Z.eqb_spec (size (Trie.find
              (substr fragment 0 (size_t_of_int (m_minSearchLength m))) exactOnly
              (m_sequencedDNA m))) 0) as [He|_].
  - destruct (Trie.find _ _ _); [reflexivity|]. unfold size in He. simpl in He. lia.
  - simpl. by destruct (size _ =? 0).
Qed.

(** A successful call lists the values of the map [match] built from the
    seeds. *)
Lemma findGenomesWithThisDNA_true m fragment minimumLength exactOnly matches0 matches :
  findGenomesWithThisDNA m fragment minimumLength exactOnly matches0 = (true, matches) ->
  matches = (map_to_list (best_matches m fragment minimumLength exactOnly
                            (seeds m fragment exactOnly))).*2.
Proof.
  intros H.
  destruct (Z.ltb_spec (size fragment) (size_t_of_int minimumLength)) as [Hs|Hs].
  { unfold findGenomesWithThisDNA in H.
    destruct (Z.ltb_spec (size fragment) (size_t_of_int minimumLength)); [done|lia]. }
  destruct (Z.ltb_spec minimumLength (m_minSearchLength m)) as [Hk|Hk].
  { unfold findGenomesWithThisDNA in H.
    destruct (size fragment <? size_t_of_int minimumLength); [done|].
    destruct (Z.ltb_spec minimumLength (m_minSearchLength m)); [done|lia]. }
  rewrite findGenomesWithThisDNA_searches in H by done. simpl in H. congruence.
Qed.

(** A call that returns [false] leaves the caller's vector as it was or
    empty. *)
Lemma findGenomesWithThisDNA_false m fragment minimumLength exactOnly matches0 matches :
  findGenomesWithThisDNA m fragment minimumLength exactOnly matches0 = (false, matches) ->
  matches = matches0 \/ matches = [].
Proof.
  unfold findGenomesWithThisDNA.
  destruct (size fragment <? size_t_of_int minimumLength); [intros [= <-]; by left|].
  destruct (minimumLength <? m_minSearchLength m); [intros [= <-]; by left|].
  destruct (size (Trie.find _ _ _) =? 0); [intros [= <-]; by right|].
  destruct (Z.eqb_spec (size (map_to_list
              (best_matches m fragment minimumLength exactOnly
                 (Trie.find (substr fragment 0 (size_t_of_int (m_minSearchLength m)))
                    exactOnly (m_sequencedDNA m)))).*2) 0) as [He|_]; [|done].
  intros [= <-]. right. destruct (map_to_list _).*2; [done|].
  unfold size in He. simpl in He. lia.
Qed.

(** The matches of a successful call, tagged with the genome ids under
    which the map [match] holds them. *)
Lemma findGenomesWithThisDNA_tagged (m : GenomeMatcherImpl) (fragment : str)
    (minimumLength : Z) (exactOnly : bool) (matches0 matches : list DNAMatch.t) :
  findGenomesWithThisDNA m fragment minimumLength exactOnly matches0 = (true, matches) ->
  exists tagged : list (Z * DNAMatch.t),
    matches = tagged.*2
    /\ NoDup tagged.*1
    /\ (forall gid d, (gid, d) ∈ tagged ->
          candidate_match m fragment minimumLength exactOnly gid d).
Proof.
  intros H. apply findGenomesWithThisDNA_true in H.
  eexists. split_and!; [exact H|apply NoDup_fst_map_to_list|].
  intros gid d Hin%elem_of_map_to_list.
  by apply (best_matches_best m fragment minimumLength exactOnly
              (seeds m fragment exactOnly) gid).
Qed.

(** The selection step: a successful call returns at most one DNAMatch per
    library genome (the returned matches can be tagged with pairwise
    distinct genome ids), each of them a candidate of its genome whose
    length is the greatest among the candidates of that genome; and every
    genome with a candidate is among them. *)
Lemma one_best_candidate_per_genome (m : GenomeMatcherImpl) (fragment : str)
    (minimumLength : Z) (exactOnly : bool) (matches0 matches : list DNAMatch.t) :
  findGenomesWithThisDNA m fragment minimumLength exactOnly matches0 = (true, matches) ->
  exists tagged : list (Z * DNAMatch.t),
    matches = tagged.*2
    /\ NoDup tagged.*1
    /\ (forall gid d, (gid, d) ∈ tagged ->
          candidate_match m fragment minimumLength exactOnly gid d
          /\ forall d', candidate_match m fragment minimumLength exactOnly gid d' ->
                        DNAMatch.length d' <= DNAMatch.length d)
    /\ (forall gid d', candidate_match m fragment minimumLength exactOnly gid d' ->
          exists d, (gid, d) ∈ tagged).
Proof.
  intros H. apply findGenomesWithThisDNA_true in H.
  set (best := best_matches m fragment minimumLength exactOnly
                 (seeds m fragment exactOnly)) in H.
  pose proof (best_matches_best m fragment minimumLength exactOnly
                (seeds m fragment exactOnly)) as Hbest.
  fold best in Hbest. exists (map_to_list best). split_and!.
  - done.
  - apply NoDup_fst_map_to_list.
  - intros gid d Hin%elem_of_map_to_list. destruct (Hbest gid) as [Hsound Hmax].
    split; [by apply Hsound|]. intros d' Hd'.
    destruct (Hmax d' Hd') as (d2 & Hd2 & Hle). congruence.
  - intros gid d' Hd'. destruct (Hbest gid) as [_ Hmax].
    destruct (Hmax d' Hd') as (d & Hd & _). exists d. by apply elem_of_map_to_list.
Qed.

(** ** GenomeMatcher: what a reported length is backed by *)

Lemma mismatches_take_S (a : str) : forall (b : str) (n : nat),
  mismatches (take (S n) a) (take (S n) b)
  = (mismatches (take n a) (take n b)
     + match a !! n, b !! n with
       | Some x, Some y => if decide (x = y) then 0 else 1
       | _, _ => 0
       end)%nat.
Proof.
  induction a as [|x a IH]; intros b n.
  - rewrite !take_nil. by destruct n.
  - destruct b as [|y b].
    + rewrite !take_nil, !mismatches_nil_r. destruct ((x :: a) !! n); by destruct n.
    + destruct n as [|n]; [simpl; lia|].
      change (take (S (S n)) (x :: a)) with (x :: take (S n) a).
      change (take (S (S n)) (y :: b)) with (y :: take (S n) b).
      change (take (S n) (x :: a)) with (x :: take n a).
      change (take (S n) (y :: b)) with (y :: take n b).
      cbn [mismatches]. rewrite IH. simpl. lia.
Qed.

Section Extension.
Variables (g : GenomeImpl) (fragment : str) (pos : Z) (allowed : nat).
Hypothesis Hbases : forallb is_base (m_sequence g) = true.
Hypothesis Hpos : 0 <= pos.

Local Abbreviation diff := (differences g fragment pos).

Lemma differences_succ n :
  0 <= n ->
  diff (n + 1)
  = (diff n
     + match drop (Z.to_nat pos) (m_sequence g) !! Z.to_nat n, fragment !! Z.to_nat n with
       | Some x, Some y => if decide (x = y) then 0 else 1
       | _, _ => 0
       end)%nat.
Proof.
  intros Hn. unfold differences, segment.
  replace (Z.to_nat (n + 1)) with (S (Z.to_nat n)) by lia.
  apply mismatches_take_S.
Qed.

Lemma differences_mono n : 0 <= n -> (diff n <= diff (n + 1))%nat.
Proof. intros Hn. rewrite differences_succ by done. lia. Qed.

Lemma differences_step n : 0 <= n -> (diff (n + 1) <= diff n + 1)%nat.
Proof. intros Hn. rewrite differences_succ by done. repeat case_match; lia. Qed.

Lemma differences_same_last n :
  1 <= n ->
  char_at (segment (m_sequence g) pos n) (n - 1) = char_at fragment (n - 1) ->
  diff n = diff (n - 1).
Proof.
  intros Hn. unfold char_at, segment. rewrite lookup_take_lt by lia. intros He.
  replace n with (n - 1 + 1) at 1 by lia. rewrite differences_succ by lia.
  rewrite He. destruct (fragment !! Z.to_nat (n - 1)); [|lia].
  rewrite decide_True by done. lia.
Qed.

Lemma differences_equal n :
  segment (m_sequence g) pos n = take (Z.to_nat n) fragment -> diff n = 0%nat.
Proof. intros He. unfold differences. rewrite He. apply mismatches_refl. Qed.

Local Abbreviation reached := (loop_reached g fragment pos allowed).
Local Abbreviation result := (loop_result g fragment pos allowed).

Lemma grow_result fuel : forall snipped actualLength,
  1 <= actualLength <= size fragment ->
  pos + actualLength - 1 <= Genome.length g ->
  size fragment - actualLength < Z.of_nat fuel ->
  reached snipped actualLength ->
  result (grow fuel g fragment pos snipped actualLength).
Proof.
  induction fuel as [|fuel IH]; intros snipped n Hn Hin Hfuel Hinv; [lia|].
  assert (Hprev : (diff (n - 1) <= allowed)%nat).
  { destruct snipped; [done|]. destruct Hinv as [-> Hd]. fold diff in Hd.
    pose proof (differences_mono (n - 1)). replace (n - 1 + 1) with n in * by lia. lia. }
  cbn [grow]. rewrite size_t_of_int_nonneg by lia.
  destruct (Z.leb_spec n (size fragment)); [|lia].
  unfold Genome.extract_or_error.
  destruct (decide (pos + n <= Genome.length g)) as [Hfit|Hover].
  2: { rewrite extract_out_of_range by (unfold in_range; lia).
       rewrite decide_True by done. split; [lia|]. right. split; [lia|done]. }
  rewrite extract_in_range by (unfold in_range; lia).
  rewrite decide_False by (by apply bases_never_spell_error).
  assert (Hsize : size (segment (m_sequence g) pos n) = n)
    by (apply size_segment; unfold Genome.length in *; lia).
  rewrite Hsize.
  assert (Hstep : (diff (n + 1) <= diff n + 1)%nat) by (apply differences_step; lia).
  unfold substr. rewrite Z.sub_0_r, Z.min_l by lia. simpl drop.
  case_decide as Heq.
  - apply differences_equal in Heq.
    destruct (Z.eqb_spec n (size fragment)) as [Hlast|Hmore].
    + split; [lia|]. left. split; [done|lia].
    + apply IH; [lia|lia|lia|].
      destruct snipped; simpl.
      * replace (n + 1 - 1) with n by lia. lia.
      * destruct Hinv as [-> _]. split; [done|lia].
  - destruct snipped; simpl.
    + case_decide as Hlastchar.
      * split; [lia|]. left. split; [lia|done].
      * assert (Hsame : diff n = diff (n - 1))
          by (apply differences_same_last; [lia|done]).
        destruct (Z.eqb_spec n (size fragment)) as [Hlast|Hmore].
        -- split; [lia|]. left. split; [done|lia].
        -- apply IH; [lia|lia|lia|]. simpl.
           replace (n + 1 - 1) with n by lia. lia.
    + destruct Hinv as [-> Hd].
      destruct (Z.eqb_spec n (size fragment)) as [Hlast|Hmore].
      * split; [lia|]. left. split; [done|lia].
      * apply IH; [lia|lia|lia|]. simpl. replace (n + 1 - 1) with n by lia. lia.
Qed.
End Extension.

Lemma head_take {A} (l : list A) n : (1 <= n)%nat -> head (take n l) = head l.
Proof. intros Hn. destruct n; [lia|]. by destruct l. Qed.

Lemma mismatches_same_head (a b : str) :
  head a = head b -> mismatches a b = mismatches (tail a) (tail b).
Proof.
  destruct a as [|x a], b as [|y b]; simpl; try done.
  intros [= ->]. by rewrite decide_True.
Qed.

(** A successful call has passed both entry tests. *)
Lemma findGenomesWithThisDNA_true_tests m fragment minimumLength exactOnly matches0 matches :
  findGenomesWithThisDNA m fragment minimumLength exactOnly matches0 = (true, matches) ->
  size_t_of_int minimumLength <= size fragment /\ m_minSearchLength m <= minimumLength.
Proof.
  unfold findGenomesWithThisDNA.
  destruct (Z.ltb_spec (size fragment) (size_t_of_int minimumLength)); [done|].
  destruct (Z.ltb_spec minimumLength (m_minSearchLength m)); [done|]. done.
Qed.

(** X13: every match a search reports is backed by its genome, or exceeds by
    one base a match that is and ends at the last base of the genome: the
    extension loop is left on a failed extraction with the length it just
    asked for.  This is all that separates the reported matches from
    sound ones, exact or approximate. *)
Lemma reported_match_backed_up_to_one_base (k : Z) (gs : list GenomeImpl) (fragment : str)
    (minimumLength : Z) (exactOnly : bool) (matches0 matches : list DNAMatch.t)
    (d : DNAMatch.t) :
  1 <= k ->
  Forall (fun g => forallb is_base (m_sequence g) = true) gs ->
  findGenomesWithThisDNA (build k gs) fragment minimumLength exactOnly matches0
  = (true, matches) ->
  d ∈ matches ->
  exists gid g,
    genome_of (build k gs) gid = Some g
    /\ DNAMatch.genomeName d = Genome.name g
    /\ minimumLength <= DNAMatch.length d
    /\ (backed_by g fragment exactOnly (DNAMatch.position d) (DNAMatch.length d)
        \/ (DNAMatch.position d + DNAMatch.length d = Genome.length g + 1
            /\ backed_by g fragment exactOnly (DNAMatch.position d) (DNAMatch.length d - 1))).
Proof.
  intros Hk Hgs Hcall Hd.
  destruct (findGenomesWithThisDNA_true_tests _ _ _ _ _ _ Hcall) as [Hfrag HkL].
  rewrite build_minSearchLength in HkL.
  rewrite size_t_of_int_nonneg in Hfrag by lia.
  destruct (findGenomesWithThisDNA_tagged _ _ _ _ _ _ Hcall) as (tagged & -> & _ & Hadm).
  apply list_elem_of_fmap in Hd as ([gid d'] & -> & Hin). simpl.
  destruct (Hadm _ _ Hin) as (pos & Hseed & Hcand & HL).
  unfold candidate_of in Hcand. simpl in Hcand.
  destruct (genome_of (build k gs) gid) as [g|] eqn:Hg; [|done].
  injection Hcand as <-. simpl in *. rewrite build_minSearchLength in *.
  exists gid, g. split_and!; [done|done|done|].
  (* the seed is a window of [g] within the budget of the key *)
  unfold seeds in Hseed. rewrite build_minSearchLength in Hseed.
  rewrite size_t_of_int_nonneg in Hseed by lia.
  unfold substr in Hseed. rewrite Z.sub_0_r, Z.min_l in Hseed by lia. simpl drop in Hseed.
  apply (elem_of_find_keyed _ _ _ _ (proj1 (seeds_in_library_build k gs))) in Hseed
    as (path & Hpath & Hval).
  destruct (proj2 (seeds_in_library_build k gs) _ _ _ Hval) as (_ & g' & Hg' & Hext).
  rewrite build_minSearchLength in Hext. rewrite Hg in Hg'. injection Hg' as <-.
  apply extract_Some in Hext as [[[Hp0 Hp1] Hp2] ->]; [|lia].
  destruct Hpath as (_ & Hhead & Hmm).
  change (drop (Z.to_nat 0) fragment) with fragment in Hhead, Hmm.
  rewrite head_take in Hhead by lia.
  assert (Hbases : forallb is_base (m_sequence g) = true).
  { rewrite Forall_forall in Hgs. apply Hgs.
    unfold genome_of in Hg. rewrite build_library in Hg.
    by apply list_elem_of_lookup_2 in Hg. }
  assert (Hdiff : (differences g fragment pos k <= budget exactOnly)%nat).
  { unfold differences. rewrite mismatches_same_head; [done|].
    by rewrite head_take by lia. }
  assert (Hheads : forall len, 1 <= len ->
            head (segment (m_sequence g) pos len) = head fragment).
  { intros len Hlen. rewrite <- Hhead. unfold segment. by rewrite !head_take by lia. }
  (* the loop, from the seed on *)
  pose proof (grow_result g fragment pos (budget exactOnly) Hbases Hp0
                (S (length fragment)) exactOnly k) as Hloop.
  destruct Hloop as [Hlen [[Hfit Hd]|[Hover Hd]]].
  - lia.
  - lia.
  - unfold size. lia.
  - destruct exactOnly; simpl in *.
    + pose proof (differences_mono g fragment pos (k - 1)).
      replace (k - 1 + 1) with k in * by lia. lia.
    + done.
  - left. unfold backed_by, actualLength_of in *. split_and!; try done; try lia.
    apply Hheads. lia.
  - right. unfold actualLength_of in *. split; [done|].
    unfold backed_by. split_and!; try done; try lia. apply Hheads. lia.
Qed.

(** ** GenomeMatcher: the entry tests *)

(** A call that fails an entry test returns [false] and hands the caller's
    vector back as it received it. *)
Lemma findGenomesWithThisDNA_rejects m fragment minimumLength exactOnly matches0 :
  size fragment < size_t_of_int minimumLength \/ minimumLength < m_minSearchLength m ->
  findGenomesWithThisDNA m fragment minimumLength exactOnly matches0 = (false, matches0).
Proof.
  intros H. unfold findGenomesWithThisDNA.
  destruct (Z.ltb_spec (size fragment) (size_t_of_int minimumLength)); [done|].
  destruct (Z.ltb_spec minimumLength (m_minSearchLength m)); [done|lia].
Qed.

Lemma findRelatedGenomes_rejects m query fragmentMatchLength exactOnly threshold results0 :
  fragmentMatchLength < m_minSearchLength m ->
  findRelatedGenomes m query fragmentMatchLength exactOnly threshold results0
  = Some (false, results0).
Proof.
  intros H. unfold findRelatedGenomes.
  destruct (Z.ltb_spec fragmentMatchLength (m_minSearchLength m)); [done|lia].
Qed.

(** The exit for a query shorter than one window comes after the
    [clear()]. *)
Lemma findRelatedGenomes_no_window m query fragmentMatchLength exactOnly threshold results0 :
  m_minSearchLength m <= fragmentMatchLength -> fragmentMatchLength <> 0 ->
  Genome.length query `quot` fragmentMatchLength = 0 ->
  findRelatedGenomes m query fragmentMatchLength exactOnly threshold results0
  = Some (false, []).
Proof.
  intros Hk Hm HS. unfold findRelatedGenomes.
  destruct (Z.ltb_spec fragmentMatchLength (m_minSearchLength m)); [lia|].
  destruct (Z.eqb_spec fragmentMatchLength 0); [done|].
  by rewrite HS.
Qed.

(** ** The scenarios of the specification, run on the model *)

Example scenario_1 :
  findGenomesWithThisDNA (build 4 [Genome "A" $"ACGTACGT"]) $"ACGT" 4 true []
  = (true, [DNAMatch.mk "A" 4 0]).
Proof. vm_compute. reflexivity. Qed.

Example scenario_2 :
  findGenomesWithThisDNA (build 4 [Genome "A" $"ACGTACGT"]) $"ACGTACGT" 4 true []
  = (true, [DNAMatch.mk "A" 8 0]).
Proof. vm_compute. reflexivity. Qed.

Example scenario_3 :
  findGenomesWithThisDNA (build 4 [Genome "A" $"ACGTACGT"]) $"ACGTTCGT" 6 false []
  = (true, [DNAMatch.mk "A" 8 0]).
Proof. vm_compute. reflexivity. Qed.

Example scenario_4 :
  findGenomesWithThisDNA (build 4 [Genome "A" $"ACGTACGT"]) $"ACGTTCGT" 6 true []
  = (false, []).
Proof. vm_compute. reflexivity. Qed.

Example scenario_5 :
  exists matches,
    findGenomesWithThisDNA (build 3 [Genome "X" $"AAAA"; Genome "Y" $"CCCCAAAA"])
      $"AAA" 3 true [] = (true, matches)
    /\ matches ≡ₚ [DNAMatch.mk "X" 3 0; DNAMatch.mk "Y" 3 4].
Proof.
  eexists. split; [vm_compute; reflexivity|]. apply Permutation_swap.
Qed.

(** The percentage of "Q" is the double 66.66666666666666, that is
    2345624805922133 / 2^45: what [(2 / 3.0) * 100] evaluates to. *)
Example scenario_6 :
  exists results,
    findRelatedGenomes (build 3 [Genome "P" $"AAACCCGGG"; Genome "Q" $"AAATTTGGG"])
      (Genome "q" $"AAACCCGGG") 3 true (Qc_of_Z 50) [] = Some (true, results)
    /\ shown <$> results
       = [("P", 100 # 1); ("Q", 2345624805922133 # 35184372088832)]%Q.
Proof. eexists. split; vm_compute; reflexivity. Qed.

Example scenario_6_strict :
  exists results,
    findRelatedGenomes (build 3 [Genome "P" $"AAACCCGGG"; Genome "Q" $"AAATTTGGG"])
      (Genome "q" $"AAACCCGGG") 3 true (Qc_of_Z 6667 / Qc_of_Z 100)%Qc []
    = Some (true, results)
    /\ shown <$> results = [("P", 100 # 1)]%Q.
Proof. eexists. split; vm_compute; reflexivity. Qed.

(** The rounding decides at a threshold: 11 of 20 windows are found, and
    [(11 / 20.0) * 100] is the double 55.00000000000001, that is
    7740561859543041 / 2^47, which exceeds the threshold 55. *)
Example eleven_of_twenty_windows :
  exists results,
    findRelatedGenomes (build 1 [Genome "P" $"A"])
      (Genome "q" $"AAAAAAAAAAACCCCCCCCC") 1 true (Qc_of_Z 55) [] = Some (true, results)
    /\ shown <$> results = [("P", 7740561859543041 # 140737488355328)]%Q.
Proof. eexists. split; vm_compute; reflexivity. Qed.

(** ** GenomeMatcher: the queries on concrete libraries *)

(** C4: the length reported for a genome is not the greatest length of an
    admissible match of that genome.  The genome "ACGTCCACGT" is searched
    for "ACGTA" with [k = 4], exactly: the fragment's first 4 bases occur
    at the positions 0 and 6, its 5 bases nowhere, so the longest match
    has length 4.  Extending the seed at 6 runs off the end of the
    genome; the loop is left by the failed extraction with [actualLength]
    at 5, which beats the length 4 of the seed at 0 and is reported. *)
Theorem reported_length_exceeds_longest_match :
  findGenomesWithThisDNA (build 4 [Genome "A" $"ACGTCCACGT"]) $"ACGTA" 4 true []
  = (true, [DNAMatch.mk "A" 5 6])
  /\ backed_by (Genome "A" $"ACGTCCACGT") $"ACGTA" true 0 4
  /\ backed_by (Genome "A" $"ACGTCCACGT") $"ACGTA" true 6 4
  /\ (forall pos len,
        backed_by (Genome "A" $"ACGTCCACGT") $"ACGTA" true pos len -> len <= 4)
  /\ Genome.extract (Genome "A" $"ACGTCCACGT") 6 5 = None.
Proof.
  split_and!.
  - vm_compute. reflexivity.
  - vm_compute. split_and!; try done; lia.
  - vm_compute. split_and!; try done; lia.
  - intros pos len (Hpos & Hlen & Hfit & _ & Hd).
    unfold Genome.length, size in *. simpl in *.
    destruct (decide (len = 5)) as [->|]; [exfalso|lia].
    assert (pos = 0 \/ pos = 1 \/ pos = 2 \/ pos = 3 \/ pos = 4 \/ pos = 5) as Hcases by lia.
    destruct Hcases as [->|[->|[->|[->|[->| ->]]]]]; vm_compute in Hd; lia.
  - reflexivity.
Qed.

(** C3: with [exactMatchOnly] the call can return a match that no window
    of the genome backs.  The genome "ACGT" is searched for "ACGTA": the
    extension reaches length 4, the extraction of 5 bases fails, and the
    loop is left with [actualLength] still 5, which is reported although
    the genome has 4 bases and [extract(0, 5)] fails. *)
Theorem exact_match_runs_past_genome_end :
  findGenomesWithThisDNA (build 4 [Genome "A" $"ACGT"]) $"ACGTA" 4 true []
  = (true, [DNAMatch.mk "A" 5 0])
  /\ Genome.length (Genome "A" $"ACGT") = 4
  /\ Genome.extract (Genome "A" $"ACGT") 0 5 = None.
Proof. vm_compute. done. Qed.

(** C2: without [exactMatchOnly] the same happens after the one allowed
    mismatch: "ACGT" is searched for "ACGAT", the mismatch at index 3 is
    accepted, the extraction of 5 bases fails, and a match of length 5 is
    reported for a genome of 4 bases; the fragment differs from what the
    genome holds at index 3 and has no counterpart at index 4. *)
Theorem approximate_match_runs_past_genome_end :
  findGenomesWithThisDNA (build 3 [Genome "A" $"ACGT"]) $"ACGAT" 4 false []
  = (true, [DNAMatch.mk "A" 5 0])
  /\ Genome.length (Genome "A" $"ACGT") = 4
  /\ Genome.extract (Genome "A" $"ACGT") 0 5 = None
  /\ $"ACGT" !! 3%nat <> $"ACGAT" !! 3%nat.
Proof. vm_compute. split_and!; done. Qed.

(** C7: the entry tests return before the output vector is cleared, so a
    failing call hands back whatever the caller's vector held.  Only the
    zero-windows exit of [findRelatedGenomes] comes after the [clear()]. *)
Theorem failed_calls_keep_stale_output :
  findGenomesWithThisDNA (build 4 [Genome "A" $"ACGT"]) $"ACG" 4 false
    [DNAMatch.mk "X" 1 1] = (false, [DNAMatch.mk "X" 1 1])
  /\ findGenomesWithThisDNA (build 4 [Genome "A" $"ACGT"]) $"ACGT" 3 false
       [DNAMatch.mk "X" 1 1] = (false, [DNAMatch.mk "X" 1 1])
  /\ findRelatedGenomes (build 4 [Genome "A" $"ACGT"]) (Genome "q" $"ACGTACGT") 3 false 0
       [GenomeMatch.mk "X" 0] = Some (false, [GenomeMatch.mk "X" 0])
  /\ findRelatedGenomes (build 4 [Genome "A" $"ACGT"]) (Genome "q" $"ACG") 4 false 0
       [GenomeMatch.mk "X" 0] = Some (false, []).
Proof. vm_compute. done. Qed.

(** C10: the map of best matches is keyed by the genome's number, so two
    library genomes that share a name are both reported, under equal
    [genomeName]s. *)
Theorem same_name_genomes_both_reported :
  exists matches d1 d2,
    findGenomesWithThisDNA (build 3 [Genome "X" $"AAAC"; Genome "X" $"TAAA"])
      $"AAA" 3 true [] = (true, matches)
    /\ d1 ∈ matches /\ d2 ∈ matches
    /\ DNAMatch.genomeName d1 = DNAMatch.genomeName d2
    /\ DNAMatch.position d1 <> DNAMatch.position d2.
Proof.
  eexists _, (DNAMatch.mk "X" 3 0), (DNAMatch.mk "X" 3 1). split_and!.
  - vm_compute. reflexivity.
  - set_solver.
  - set_solver.
  - reflexivity.
  - discriminate.
Qed.

(** ** GenomeMatcher: relatedness *)

Section DistinctNames.
Variable m : GenomeMatcherImpl.
Hypothesis Hseeds : seeds_in_library m.
Hypothesis Hnames : NoDup (Genome.name <$> m_genomeLibrary m).

(** A candidate carries the name of the genome its id numbers. *)
Lemma candidate_match_genome fragment minimumLength exactOnly gid d :
  candidate_match m fragment minimumLength exactOnly gid d ->
  1 <= gid /\ exists g, genome_of m gid = Some g /\ DNAMatch.genomeName d = Genome.name g.
Proof.
  intros (pos & Hin & Hc & _). unfold seeds in Hin.
  apply (elem_of_find_keyed _ _ _ _ (proj1 Hseeds)) in Hin as (path & _ & Hin).
  destruct (proj2 Hseeds _ _ _ Hin) as ([H1 _] & _). split; [done|].
  unfold candidate_of in Hc. simpl in Hc.
  destruct (genome_of m gid) as [g|]; [|done].
  injection Hc as <-. by exists g.
Qed.

(** With pairwise distinct names in the library, one search lists every
    genome name at most once. *)
Lemma findGenomesWithThisDNA_names_NoDup fragment minimumLength exactOnly :
  NoDup (DNAMatch.genomeName <$>
           (findGenomesWithThisDNA m fragment minimumLength exactOnly []).2).
Proof.
  destruct (findGenomesWithThisDNA m fragment minimumLength exactOnly [])
    as [[] matches] eqn:Hcall; simpl.
  - destruct (findGenomesWithThisDNA_tagged m fragment minimumLength exactOnly []
                matches Hcall) as (tagged & -> & Hnd & Hadm).
    rewrite <- list_fmap_compose. apply NoDup_fmap_2_strong.
    + intros [gid1 d1] [gid2 d2] Hin1 Hin2 Hname. simpl in Hname.
      destruct (candidate_match_genome _ _ _ _ _ (Hadm _ _ Hin1)) as (Hg1 & g1 & Hl1 & Hn1).
      destruct (candidate_match_genome _ _ _ _ _ (Hadm _ _ Hin2)) as (Hg2 & g2 & Hl2 & Hn2).
      unfold genome_of in *.
      assert (Hi : Z.to_nat (gid1 - 1) = Z.to_nat (gid2 - 1)).
      { apply (NoDup_lookup _ _ _ (Genome.name g1) Hnames).
        - by rewrite list_lookup_fmap, Hl1.
        - rewrite list_lookup_fmap, Hl2. simpl. congruence. }
      assert (gid1 = gid2) as -> by lia.
      f_equal.
      apply (elem_of_list_to_map_1 (M:=gmap Z) _ _ _ Hnd) in Hin1, Hin2. congruence.
    + by apply NoDup_fmap_1 in Hnd.
  - apply findGenomesWithThisDNA_false in Hcall as [->| ->]; apply NoDup_nil_2.
Qed.
End DistinctNames.

Lemma count_match_lookup gm d name :
  default 0 (count_match gm d !! name)
  = default 0 (gm !! name) + (if decide (DNAMatch.genomeName d = name) then 1 else 0).
Proof.
  unfold count_match. destruct (decide (DNAMatch.genomeName d = name)) as [<-|Hne].
  - by rewrite lookup_insert_eq.
  - rewrite lookup_insert_ne by done. lia.
Qed.

Lemma fold_count_match_other matches : forall gm name,
  name ∉ DNAMatch.genomeName <$> matches ->
  default 0 (fold_left count_match matches gm !! name) = default 0 (gm !! name).
Proof.
  induction matches as [|d matches IH]; intros gm name Hnot; [reflexivity|].
  rewrite fmap_cons in Hnot. apply not_elem_of_cons in Hnot as [Hne Hnot].
  simpl. rewrite IH by done. rewrite count_match_lookup, decide_False by done. lia.
Qed.

(** Matches with pairwise distinct names raise the counter of each name
    they contain by 1. *)
Lemma fold_count_match_count matches : forall gm name,
  NoDup (DNAMatch.genomeName <$> matches) ->
  default 0 (fold_left count_match matches gm !! name)
  = default 0 (gm !! name)
    + (if decide (name ∈ DNAMatch.genomeName <$> matches) then 1 else 0).
Proof.
  induction matches as [|d matches IH]; intros gm name Hnd.
  - destruct (decide (name ∈ DNAMatch.genomeName <$> [])) as [H|_]; [|simpl; lia].
    by apply not_elem_of_nil in H.
  - rewrite fmap_cons in *. apply NoDup_cons in Hnd as [Hd Hnd]. cbn [fold_left].
    destruct (decide (DNAMatch.genomeName d = name)) as [<-|Hne].
    + rewrite fold_count_match_other by done.
      rewrite count_match_lookup, decide_True by done.
      by rewrite decide_True by left.
    + rewrite IH, count_match_lookup, decide_False by done.
      destruct (decide (name ∈ DNAMatch.genomeName <$> matches)) as [Hin|Hnot].
      * rewrite decide_True by (by right). lia.
      * rewrite decide_False; [lia|]. by intros [?|?]%elem_of_cons.
Qed.

Lemma fold_count_match_bound matches gm name :
  NoDup (DNAMatch.genomeName <$> matches) ->
  default 0 (gm !! name) <= default 0 (fold_left count_match matches gm !! name)
  <= default 0 (gm !! name) + 1.
Proof. intros Hnd. rewrite fold_count_match_count by done. case_decide; lia. Qed.

Section WindowCounts.
Variable m : GenomeMatcherImpl.
Hypothesis Hseeds : seeds_in_library m.
Hypothesis Hnames : NoDup (Genome.name <$> m_genomeLibrary m).
Variables (query : GenomeImpl) (fragmentMatchLength : Z) (exactOnly : bool).

(** Each of the [n] windows raises the counter of a name by at most 1. *)
Lemma count_windows_bound n : forall i gm name,
  default 0 (gm !! name)
  <= default 0 (count_windows n m query fragmentMatchLength exactOnly i gm !! name)
  <= default 0 (gm !! name) + Z.of_nat n.
Proof.
  induction n as [|n IH]; intros i gm name; [simpl; lia|].
  cbn [count_windows]. case_decide; [lia|].
  pose proof (findGenomesWithThisDNA_names_NoDup m Hseeds Hnames
                (Genome.extract_or_error query (i * fragmentMatchLength)
                   fragmentMatchLength)
                fragmentMatchLength exactOnly) as Hnd.
  pose proof (fold_count_match_bound _ gm name Hnd) as Hstep.
  specialize (IH (i + 1) (fold_left count_match
    (findGenomesWithThisDNA m
       (Genome.extract_or_error query (i * fragmentMatchLength) fragmentMatchLength)
       fragmentMatchLength exactOnly []).2 gm) name).
  lia.
Qed.

(** With a query of base letters and windows of at least one base, the
    loop visits every window, and the counter of a name is the number of
    windows whose search reports it. *)
Lemma count_windows_counts n : forall i gm name,
  forallb is_base (m_sequence query) = true ->
  1 <= fragmentMatchLength -> 0 <= i ->
  (i + Z.of_nat n) * fragmentMatchLength <= Genome.length query ->
  default 0 (count_windows n m query fragmentMatchLength exactOnly i gm !! name)
  = default 0 (gm !! name)
    + Z.of_nat (length (filter (found_in m fragmentMatchLength exactOnly name)
                          (window query fragmentMatchLength <$> seqZ i (Z.of_nat n)))).
Proof.
  induction n as [|n IH]; intros i gm name Hq Hm Hi Hfit.
  - rewrite seqZ_nil by lia. simpl. lia.
  - cbn [count_windows]. unfold Genome.extract_or_error.
    rewrite extract_in_range by (unfold in_range; nia).
    rewrite decide_False by (by apply bases_never_spell_error).
    rewrite IH by (try done; lia).
    rewrite fold_count_match_count
      by (by apply findGenomesWithThisDNA_names_NoDup).
    rewrite (seqZ_cons i) by lia.
    replace (Z.pred (Z.of_nat (S n))) with (Z.of_nat n) by lia.
    replace (Z.succ i) with (i + 1) by lia.
    rewrite fmap_cons, filter_cons. fold (window query fragmentMatchLength i).
    unfold found_in at 2.
    destruct (decide (name ∈ DNAMatch.genomeName <$>
                (findGenomesWithThisDNA m (window query fragmentMatchLength i)
                   fragmentMatchLength exactOnly []).2)); simpl; lia.
Qed.

Lemma window_hits_counts name :
  forallb is_base (m_sequence query) = true ->
  1 <= fragmentMatchLength ->
  window_hits m query fragmentMatchLength exactOnly name
  = Z.of_nat (length (filter (found_in m fragmentMatchLength exactOnly name)
                        (window query fragmentMatchLength
                           <$> seqZ 0 (Genome.length query `quot` fragmentMatchLength)))).
Proof.
  intros Hq Hm. unfold window_hits.
  assert (Hlen : 0 <= Genome.length query) by apply size_nonneg.
  assert (HS : 0 <= Genome.length query `quot` fragmentMatchLength)
    by (apply Z.quot_pos; lia).
  rewrite count_windows_counts; try done.
  - rewrite lookup_empty, Z2Nat.id by done. simpl. lia.
  - rewrite Z2Nat.id by done.
    rewrite Z.quot_div_nonneg by lia.
    rewrite Z.mul_comm. apply Z.mul_div_le. lia.
Qed.

Lemma window_hits_bound name :
  0 <= window_hits m query fragmentMatchLength exactOnly name
  <= Z.max 0 (Genome.length query `quot` fragmentMatchLength).
Proof.
  unfold window_hits.
  pose proof (count_windows_bound
                (Z.to_nat (Genome.length query `quot` fragmentMatchLength)) 0 ∅ name) as H.
  rewrite lookup_empty in H. simpl in H. lia.
Qed.
End WindowCounts.

(** *** Rounding to a double *)

Lemma round_half_even_le n d N : 0 < d -> n <= N * d -> round_half_even n d <= N.
Proof.
  intros Hd Hn. unfold round_half_even.
  pose proof (Z.div_mod n d ltac:(lia)) as Hdm.
  pose proof (Z.mod_pos_bound n d Hd) as Hr.
  set (f := n / d) in *. set (r := n mod d) in *.
  assert (f <= N) by nia.
  destruct (Z.ltb_spec (2 * r) d); [done|].
  assert (f + 1 <= N) by nia.
  destruct (Z.ltb_spec d (2 * r)); [done|]. by destruct (Z.even f).
Qed.

Lemma round_half_even_nonneg n d : 0 < d -> 0 <= n -> 0 <= round_half_even n d.
Proof.
  intros Hd Hn. unfold round_half_even.
  pose proof (Z.div_pos n d Hn Hd).
  repeat case_match; lia.
Qed.

Lemma round_units_nonneg a b : 0 <= a -> 0 < b -> 0 <= round_units a b.
Proof.
  intros Ha Hb. unfold round_units.
  set (e := Z.max _ 0). assert (0 < 2 ^ e) by (apply Z.pow_pos_nonneg; lia).
  pose proof (round_half_even_nonneg a (b * 2 ^ e) ltac:(nia) Ha). nia.
Qed.

Lemma round_units_le a b M E :
  0 <= a -> 0 < b -> 2 ^ 52 <= M < 2 ^ 53 -> 0 <= E ->
  a <= b * (M * 2 ^ E) -> round_units a b <= M * 2 ^ E.
Proof.
  intros Ha Hb HM HE Hle. unfold round_units.
  set (F := a / b).
  assert (HF0 : 0 <= F) by (by apply Z.div_pos).
  assert (HFa : a < b * (F + 1)).
  { pose proof (Z.div_mod a b ltac:(lia)). pose proof (Z.mod_pos_bound a b Hb).
    fold F in H. nia. }
  assert (HpE : 0 < 2 ^ E) by (apply Z.pow_pos_nonneg; lia).
  assert (HFR : F <= M * 2 ^ E).
  { apply Z.div_le_upper_bound; [done|]. lia. }
  assert (HlogF : Z.log2 F <= 52 + E).
  { destruct (decide (F = 0)) as [->|HF]; [simpl; lia|].
    assert (Z.log2 F < 53 + E); [|lia].
    apply Z.log2_lt_pow2; [lia|].
    apply Z.le_lt_trans with (M * 2 ^ E); [done|].
    rewrite Z.pow_add_r by lia. nia. }
  set (e := Z.max (Z.log2 F - 52) 0).
  assert (He0 : 0 <= e) by lia.
  assert (Hpe : 0 < 2 ^ e) by (apply Z.pow_pos_nonneg; lia).
  destruct (decide (e = E)) as [->|HeE].
  - pose proof (round_half_even_le a (b * 2 ^ E) M ltac:(nia) ltac:(nia)). nia.
  - assert (HeE' : e + 1 <= E) by lia.
    assert (HF53 : F + 1 <= 2 ^ (53 + e)).
    { destruct (decide (F = 0)) as [->|HF].
      - pose proof (Z.pow_pos_nonneg 2 (53 + e) ltac:(lia) ltac:(lia)). lia.
      - pose proof (proj2 (Z.log2_spec F ltac:(lia))) as Hs.
        assert (2 ^ Z.succ (Z.log2 F) <= 2 ^ (53 + e)); [|lia].
        apply Z.pow_le_mono_r; lia. }
    assert (Hr : round_half_even a (b * 2 ^ e) <= 2 ^ 53).
    { apply round_half_even_le; [nia|].
      rewrite Z.pow_add_r in HF53 by lia. nia. }
    assert (2 ^ (53 + e) <= 2 ^ (52 + E)) by (apply Z.pow_le_mono_r; lia).
    rewrite !Z.pow_add_r in * by lia. nia.
Qed.

Lemma Q2Qc_le (x y : Q) : (Q2Qc x <= Q2Qc y)%Qc <-> (x <= y)%Q.
Proof. unfold Qcle. simpl. by rewrite !Qred_correct. Qed.

Lemma Qc_le_Q2Qc (q : Qc) (y : Q) : (q <= Q2Qc y)%Qc <-> (q <= y)%Q.
Proof. unfold Qcle. simpl. by rewrite Qred_correct. Qed.

Lemma round64_nonneg q : (0 <= q)%Qc -> (0 <= round64 q)%Qc.
Proof.
  intros Hq. unfold round64.
  assert (0 <= Qnum q) as Hn.
  { unfold Qcle, Qle in Hq. simpl in Hq. lia. }
  assert (0 <= Qnum q * 2 ^ 1074) as Ha by (apply Z.mul_nonneg_nonneg; [done|by apply Z.pow_nonneg]).
  destruct (Z.leb_spec 0 (Qnum q * 2 ^ 1074)); [|lia].
  change 0%Qc with (Q2Qc 0). apply Q2Qc_le.
  pose proof (round_units_nonneg _ (Z.pos (Qden q)) Ha ltac:(lia)) as Hr.
  unfold Qle. simpl. lia.
Qed.

Lemma round64_le q M E :
  2 ^ 52 <= M < 2 ^ 53 -> 0 <= E ->
  (q <= Q2Qc (Qmake (M * 2 ^ E) (2 ^ 1074)%positive))%Qc ->
  (round64 q <= Q2Qc (Qmake (M * 2 ^ E) (2 ^ 1074)%positive))%Qc.
Proof.
  intros HM HE Hq. apply (proj1 (Qc_le_Q2Qc _ _)) in Hq. unfold round64. apply Q2Qc_le.
  unfold Qle in *. cbn [Qnum Qden] in *.
  assert (HD : Z.pos (2 ^ 1074) = 2 ^ 1074) by (by rewrite Pos2Z.inj_pow).
  rewrite HD in *.
  assert (HpD : 0 < 2 ^ 1074) by (by apply Z.pow_pos_nonneg).
  assert (HpE : 0 < 2 ^ E) by (apply Z.pow_pos_nonneg; lia).
  apply Z.mul_le_mono_nonneg_r; [lia|].
  destruct (Z.leb_spec 0 (Qnum q * 2 ^ 1074)) as [Ha|Ha].
  - apply round_units_le; [done|lia|done|done|]. lia.
  - pose proof (round_units_nonneg (- (Qnum q * 2 ^ 1074)) (Z.pos (Qden q))
                  ltac:(lia) ltac:(lia)). nia.
Qed.

Lemma double_one : Q2Qc (Qmake (2 ^ 52 * 2 ^ 1022) (2 ^ 1074)%positive) = 1%Qc.
Proof. apply Qc_is_canon. vm_compute. reflexivity. Qed.

Lemma double_hundred :
  Q2Qc (Qmake (25 * 2 ^ 48 * 2 ^ 1028) (2 ^ 1074)%positive) = Qc_of_Z 100.
Proof. apply Qc_is_canon. vm_compute. reflexivity. Qed.

Lemma round64_le_1 q : (q <= 1)%Qc -> (round64 q <= 1)%Qc.
Proof.
  rewrite <- double_one. apply round64_le; [|lia].
  split; [lia|]. apply Z.pow_lt_mono_r; lia.
Qed.

Lemma round64_le_100 q : (q <= Qc_of_Z 100)%Qc -> (round64 q <= Qc_of_Z 100)%Qc.
Proof.
  rewrite <- double_hundred. apply round64_le; [|lia]. vm_compute. split; [discriminate|reflexivity].
Qed.

Lemma round64_0 : round64 0 = 0%Qc.
Proof. apply Qc_is_canon. vm_compute. reflexivity. Qed.

(** The rounding agrees with the Standard Library's specification of
    binary64 on the percentages of small counts, of counts that exceed
    the number of windows, and of large ones. *)
Example percent_agrees_with_binary64 :
  forallb (fun S =>
     forallb (fun c =>
        bool_decide (rational_of_float (binary64_percent c S)
                     = Some (double_mul (double_div (Qc_of_Z c) (Qc_of_Z S))
                               (Qc_of_Z 100))))
       (seqZ 0 (2 * S + 1)))
    (seqZ 1 12)
  && forallb (fun S =>
       forallb (fun c =>
          bool_decide (rational_of_float (binary64_percent c S)
                       = Some (double_mul (double_div (Qc_of_Z c) (Qc_of_Z S))
                                 (Qc_of_Z 100))))
         [1; 7; S - 1; S; 123456789])
      [20; 1000; 65537; 999999937; 2147483647]
  = true.
Proof. vm_compute. reflexivity. Qed.

Lemma percent_le_100 gm name numSequences :
  0 <= default 0 (gm !! name) <= Z.max 0 numSequences ->
  (percent gm name numSequences <= Qc_of_Z 100)%Qc.
Proof.
  intros Hc. unfold percent, double_mul, double_div.
  set (c := default 0 (gm !! name)) in *.
  assert (H100 : (0 <= Qc_of_Z 100)%Qc) by (rewrite <- Z2Qc_inj_0; by apply Z2Qc_inj_le).
  assert (Hq1 : (Qc_of_Z c / Qc_of_Z numSequences <= 1)%Qc).
  { destruct (decide (0 < numSequences)) as [Hpos|Hneg].
    - pose proof (proj1 (Z2Qc_inj_lt 0 numSequences) Hpos) as HS.
      rewrite Z2Qc_inj_0 in HS.
      assert (HSne : Qc_of_Z numSequences <> 0%Qc).
      { intros He. rewrite He in HS. by apply Qclt_not_eq in HS. }
      unfold Qcdiv. rewrite <- (Qcmult_inv_r (Qc_of_Z numSequences) HSne).
      apply Qcmult_le_mono_nonneg_r; [by apply Qclt_le_weak, Qcinv_pos|].
      apply (proj1 (Z2Qc_inj_le c numSequences)). lia.
    - assert (c = 0) as -> by lia. rewrite Z2Qc_inj_0.
      unfold Qcdiv. by rewrite !Qcmult_0_l. }
  apply round64_le_100.
  apply (Qcle_trans _ (1 * Qc_of_Z 100)%Qc); [|rewrite Qcmult_1_l; apply Qcle_refl].
  apply Qcmult_le_mono_nonneg_r; [done|]. by apply round64_le_1.
Qed.

Lemma elem_of_related library gm numSequences threshold r :
  r ∈ related library gm numSequences threshold
  <-> exists cur, cur ∈ library
        /\ (threshold < percent gm (Genome.name cur) numSequences)%Qc
        /\ r = GenomeMatch.mk (Genome.name cur) (percent gm (Genome.name cur) numSequences).
Proof.
  unfold related. rewrite elem_of_flat_map. split.
  - intros (cur & Hcur & Hr). exists cur. case_decide; [|by apply not_elem_of_nil in Hr].
    apply list_elem_of_singleton in Hr. done.
  - intros (cur & Hcur & Hlt & ->). exists cur. split; [done|].
    rewrite decide_True by done. by apply list_elem_of_singleton.
Qed.

(** A successful call returns the entries the loop over the library
    emits, reordered. *)
Lemma findRelatedGenomes_true m query fragmentMatchLength exactOnly threshold
    results0 results :
  findRelatedGenomes m query fragmentMatchLength exactOnly threshold results0
  = Some (true, results) ->
  results ≡ₚ related (m_genomeLibrary m)
               (count_windows (Z.to_nat (Genome.length query `quot` fragmentMatchLength))
                  m query fragmentMatchLength exactOnly 0 ∅)
               (Genome.length query `quot` fragmentMatchLength) threshold.
Proof.
  unfold findRelatedGenomes.
  destruct (fragmentMatchLength <? m_minSearchLength m); [done|].
  destruct (fragmentMatchLength =? 0); [done|].
  destruct (Genome.length query `quot` fragmentMatchLength =? 0); [done|].
  destruct (size _ =? 0); [done|].
  intros [= <-]. apply merge_sort_Permutation.
Qed.

(** [findRelatedGenomes] is defined whenever the window length is not 0. *)
Lemma findRelatedGenomes_defined m query fragmentMatchLength exactOnly threshold results0 :
  fragmentMatchLength <> 0 ->
  is_Some (findRelatedGenomes m query fragmentMatchLength exactOnly threshold results0).
Proof.
  intros Hm. unfold findRelatedGenomes.
  destruct (fragmentMatchLength <? m_minSearchLength m); [by eexists|].
  destruct (Z.eqb_spec fragmentMatchLength 0); [done|].
  destruct (Genome.length query `quot` fragmentMatchLength =? 0); [by eexists|].
  destruct (size _ =? 0); by eexists.
Qed.

(** C6, as stated, fails: the windows are counted per genome name, and a
    window found in two genomes of the same name counts twice for that
    name.  With two genomes named "X" and a query of one window found in
    both, each is reported with 200 percent. *)
Lemma same_name_genomes_exceed_100_percent :
  exists results r,
    findRelatedGenomes (build 3 [Genome "X" $"AAA"; Genome "X" $"AAA"])
      (Genome "q" $"AAA") 3 true (Qc_of_Z 50) [] = Some (true, results)
    /\ r ∈ results
    /\ (Qc_of_Z 100 < GenomeMatch.percentMatch r)%Qc.
Proof.
  eexists _, _. split_and!.
  - vm_compute. reflexivity.
  - left.
  - reflexivity.
Qed.

(** C6 (amended): every GenomeMatch of a successful [findRelatedGenomes]
    has [percentMatch] strictly greater than the threshold, where
    [percentMatch] is the double [(count / (double) S) * 100] computed
    from the window count of its name and [S = floor(q.length / m)], a
    division and a multiplication each rounded to a double; and when the
    names of the library genomes are pairwise distinct, that count is at
    most [S] and [percentMatch] is at most 100. *)
Theorem related_percent_bounds (k : Z) (gs : list GenomeImpl) (query : GenomeImpl)
    (fragmentMatchLength : Z) (exactOnly : bool) (threshold : Qc)
    (results0 results : list GenomeMatch.t) (r : GenomeMatch.t) :
  findRelatedGenomes (build k gs) query fragmentMatchLength exactOnly threshold results0
  = Some (true, results) ->
  r ∈ results ->
  GenomeMatch.percentMatch r
  = double_mul
      (double_div
         (Qc_of_Z (window_hits (build k gs) query fragmentMatchLength exactOnly
                     (GenomeMatch.genomeName r)))
         (Qc_of_Z (Genome.length query `quot` fragmentMatchLength)))
      (Qc_of_Z 100)
  /\ (threshold < GenomeMatch.percentMatch r)%Qc
  /\ (NoDup (Genome.name <$> gs) ->
      0 <= window_hits (build k gs) query fragmentMatchLength exactOnly
             (GenomeMatch.genomeName r)
        <= Z.max 0 (Genome.length query `quot` fragmentMatchLength)
      /\ (GenomeMatch.percentMatch r <= Qc_of_Z 100)%Qc).
Proof.
  intros Hcall Hr.
  apply findRelatedGenomes_true in Hcall. rewrite Hcall in Hr.
  apply elem_of_related in Hr as (cur & _ & Hlt & ->). simpl.
  split_and!; [reflexivity|done|]. intros Hnames.
  assert (Hhits : 0 <= window_hits (build k gs) query fragmentMatchLength exactOnly
                         (Genome.name cur)
                  <= Z.max 0 (Genome.length query `quot` fragmentMatchLength)).
  { apply window_hits_bound; [apply seeds_in_library_build|].
    by rewrite build_library. }
  split; [done|]. by apply percent_le_100.
Qed.

Lemma related_percent_bounds_witness :
  (Qc_of_Z 50 < double_mul (double_div (Qc_of_Z 2) (Qc_of_Z 3)) (Qc_of_Z 100))%Qc
  /\ (double_mul (double_div (Qc_of_Z 2) (Qc_of_Z 3)) (Qc_of_Z 100) <= Qc_of_Z 100)%Qc.
Proof.
  destruct (related_percent_bounds 3 [Genome "P" $"AAACCCGGG"; Genome "Q" $"AAATTTGGG"]
              (Genome "q" $"AAACCCGGG") 3 true (Qc_of_Z 50) []
              (merge_sort genomeMatchBefore
                 (related [Genome "P" $"AAACCCGGG"; Genome "Q" $"AAATTTGGG"]
                    (count_windows 3
                       (build 3 [Genome "P" $"AAACCCGGG"; Genome "Q" $"AAATTTGGG"])
                       (Genome "q" $"AAACCCGGG") 3 true 0 ∅) 3 (Qc_of_Z 50)))
              (GenomeMatch.mk "Q"
                 (percent (count_windows 3
                       (build 3 [Genome "P" $"AAACCCGGG"; Genome "Q" $"AAATTTGGG"])
                       (Genome "q" $"AAACCCGGG") 3 true 0 ∅) "Q" 3)))
    as (_ & Hlo & Hhi).
  - reflexivity.
  - rewrite merge_sort_Permutation. apply elem_of_related.
    exists (Genome "Q" $"AAATTTGGG"). split_and!; [|reflexivity|reflexivity].
    right. left.
  - split; [exact Hlo|]. apply Hhi.
    apply (bool_decide_unpack _). vm_compute. reflexivity.
Defined.

(** ** Genome: the loader *)

Lemma getline_shorter source line rest :
  source <> [] -> Load.getline source = (line, rest) ->
  (length rest < length source)%nat.
Proof.
  revert line rest. induction source as [|c source IH]; intros line rest Hne Hg; [done|].
  simpl in Hg. case_decide.
  - injection Hg as <- <-. simpl. lia.
  - destruct (Load.getline source) as [line' rest'] eqn:Hg'. injection Hg as <- <-.
    destruct source as [|c' source'].
    + simpl in Hg'. injection Hg' as <- <-. simpl. lia.
    + specialize (IH line' rest' ltac:(done) eq_refl). simpl in *. lia.
Qed.

Lemma read_bases_shorter source : forall sequence sequence' rest,
  Load.read_bases source sequence = Some (sequence', rest) ->
  (length rest <= length source)%nat.
Proof.
  induction source as [|base source IH]; intros sequence sequence' rest Hr; simpl in Hr.
  - injection Hr as <- <-. done.
  - repeat case_match; try done.
    + injection Hr as <- <-. simpl. lia.
    + apply IH in Hr. simpl. lia.
    + apply IH in Hr. simpl. lia.
Qed.

(** The loop over the records ends within as many iterations as the stream
    has characters, plus the one that finds it empty. *)
Lemma load_loop_fuel fuel : forall extra source genomes,
  (length source < fuel)%nat ->
  Load.load_loop (fuel + extra) source genomes = Load.load_loop fuel source genomes.
Proof.
  induction fuel as [|fuel IH]; intros extra source genomes Hfuel; [lia|].
  simpl. destruct source as [|c source]; [reflexivity|].
  destruct (Load.getline (c :: source)) as [line rest] eqn:Hg.
  apply getline_shorter in Hg; [|done].
  destruct line as [|first name]; [reflexivity|].
  repeat case_decide; try reflexivity.
  destruct (Load.read_bases rest []) as [[sequence rest']|] eqn:Hr; [|reflexivity].
  apply read_bases_shorter in Hr.
  case_decide; [reflexivity|]. apply IH. simpl in *. lia.
Qed.

Lemma read_bases_ACGTN source : forall sequence sequence' rest,
  forallb Load.is_ACGTN sequence = true ->
  Load.read_bases source sequence = Some (sequence', rest) ->
  forallb Load.is_ACGTN sequence' = true.
Proof.
  induction source as [|base source IH]; intros sequence sequence' rest Hs Hr; simpl in Hr.
  - by injection Hr as <- <-.
  - case_decide; [by injection Hr as <- <-|].
    case_decide.
    + case_decide; [done|]. by eapply IH.
    + destruct (Load.is_ACGTN (toupper base)) eqn:Hb; [|done].
      eapply IH; [|done]. rewrite forallb_app, Hs. simpl. by rewrite Hb.
Qed.

Lemma load_loop_valid fuel : forall source genomes ok genomes',
  Forall valid_genome genomes ->
  Load.load_loop fuel source genomes = (ok, genomes') ->
  Forall valid_genome genomes'.
Proof.
  induction fuel as [|fuel IH]; intros source genomes ok genomes' Hvalid Hl; simpl in Hl.
  { by injection Hl as <- <-. }
  destruct source as [|c source]; [by injection Hl as <- <-|].
  destruct (Load.getline (c :: source)) as [line rest].
  destruct line as [|first name]; [by injection Hl as <- <-|].
  repeat (case_decide; [by injection Hl as <- <-|]).
  destruct (Load.read_bases rest []) as [[sequence rest']|] eqn:Hr;
    [|by injection Hl as <- <-].
  case_decide; [by injection Hl as <- <-|].
  eapply IH; [|exact Hl]. apply Forall_app. split; [done|].
  apply Forall_singleton. split_and!; simpl.
  - destruct name; [done|discriminate].
  - done.
  - by apply (read_bases_ACGTN rest [] sequence rest').
Qed.

Lemma ACGTN_is_upper c : Load.is_ACGTN c = true -> is_upper c.
Proof.
  unfold Load.is_ACGTN. rewrite !orb_true_iff, !bool_decide_eq_true.
  intros [[[[->| ->]| ->]| ->]| ->]; reflexivity.
Qed.

Lemma ACGTN_is_base c : Load.is_ACGTN c = true -> is_base c = true.
Proof.
  unfold Load.is_ACGTN. rewrite !orb_true_iff, !bool_decide_eq_true.
  intros [[[[->| ->]| ->]| ->]| ->]; reflexivity.
Qed.

(** X3: whatever [load] returns, with [true] or with [false], every genome
    it has put into the vector has a non-empty name and a non-empty
    sequence made of the uppercase bases A, C, G, T, N only. *)
Theorem load_yields_valid_genomes (genomeSource : str) (ok : bool)
    (genomes : list GenomeImpl) (g : GenomeImpl) :
  Load.load genomeSource = (ok, genomes) ->
  g ∈ genomes ->
  valid_genome g /\ Forall is_upper (m_sequence g).
Proof.
  intros Hl Hg. apply load_loop_valid in Hl; [|constructor].
  rewrite Forall_forall in Hl. specialize (Hl g Hg). split; [done|].
  destruct Hl as (_ & _ & Hb). rewrite forallb_forall in Hb.
  apply Forall_forall. intros c Hc. apply ACGTN_is_upper, Hb. by apply list_elem_of_In.
Qed.

Lemma load_yields_valid_genomes_witness :
  valid_genome (Genome "a" $"ACGT") /\ Forall is_upper $"ACGT".
Proof.
  apply (load_yields_valid_genomes
           (">"%char :: "a"%char :: Load.newline :: $"acgt") true [Genome "a" $"ACGT"]).
  - reflexivity.
  - by apply list_elem_of_singleton.
Defined.

Lemma getline_line line rest :
  Load.newline ∉ line ->
  Load.getline (line ++ Load.newline :: rest) = (line, rest).
Proof.
  induction line as [|c line IH]; intros Hnl; cbn [app Load.getline].
  - by rewrite decide_True.
  - apply not_elem_of_cons in Hnl as [Hc Hnl].
    rewrite decide_False by done. by rewrite IH.
Qed.

Lemma base_letter_plain c :
  is_base_letter c = true ->
  c <> ">"%char /\ c <> Load.newline /\ toupper c <> Load.newline.
Proof.
  unfold is_base_letter. intros Hc.
  split_and!; intros He; rewrite He in Hc; discriminate.
Qed.

Lemma base_letter_head bases rest :
  bases <> [] -> forallb is_base_letter bases = true ->
  head (bases ++ rest) <> Some ">"%char /\ head (bases ++ rest) <> Some Load.newline.
Proof.
  intros Hne Hb. destruct bases as [|b bases]; [done|]. simpl in *.
  apply andb_true_iff in Hb as [Hb _].
  destruct (base_letter_plain b Hb) as (H1 & H2 & _). split; congruence.
Qed.

(** The loop over the bases, on one line of base letters that is followed
    by the end of the stream or by the next record. *)
Lemma read_bases_last_line bases : forall sequence rest,
  forallb is_base_letter bases = true ->
  rest = [] \/ head rest = Some ">"%char ->
  Load.read_bases (bases ++ Load.newline :: rest) sequence
  = Some (sequence ++ (toupper <$> bases), rest).
Proof.
  induction bases as [|b bases IH]; intros sequence rest Hb Hrest.
  - cbn [app Load.read_bases fmap list_fmap]. rewrite app_nil_r.
    destruct Hrest as [->|Hrest].
    + rewrite decide_False by done. rewrite decide_True by done.
      by rewrite decide_False.
    + by rewrite decide_True.
  - simpl in Hb. apply andb_true_iff in Hb as [Hb Hbs].
    destruct (base_letter_plain b Hb) as (_ & _ & Hup).
    change ((b :: bases) ++ Load.newline :: rest)
      with (b :: (bases ++ Load.newline :: rest)).
    cbn [Load.read_bases].
    rewrite decide_False.
    2: { destruct bases as [|b' bases']; simpl; [done|].
         simpl in Hbs. apply andb_true_iff in Hbs as [Hb' _].
         destruct (base_letter_plain b' Hb') as (Hgt & _). congruence. }
    rewrite decide_False by done.
    unfold is_base_letter in Hb. rewrite Hb.
    rewrite IH by done. by rewrite fmap_cons, <- app_assoc.
Qed.

(** The same on a line that is followed by another line of bases: the
    loop goes on into it. *)
Lemma read_bases_inner_line bases : forall sequence rest,
  forallb is_base_letter bases = true ->
  head rest <> Some ">"%char -> head rest <> Some Load.newline ->
  Load.read_bases (bases ++ Load.newline :: rest) sequence
  = Load.read_bases rest (sequence ++ (toupper <$> bases)).
Proof.
  induction bases as [|b bases IH]; intros sequence rest Hb Hgt Hnl.
  - cbn [app Load.read_bases fmap list_fmap]. rewrite app_nil_r.
    rewrite decide_False by done. rewrite decide_True by done.
    by rewrite decide_False.
  - simpl in Hb. apply andb_true_iff in Hb as [Hb Hbs].
    destruct (base_letter_plain b Hb) as (_ & _ & Hup).
    change ((b :: bases) ++ Load.newline :: rest)
      with (b :: (bases ++ Load.newline :: rest)).
    cbn [Load.read_bases].
    rewrite decide_False.
    2: { destruct bases as [|b' bases']; simpl; [done|].
         simpl in Hbs. apply andb_true_iff in Hbs as [Hb' _].
         destruct (base_letter_plain b' Hb') as (Hgt' & _). congruence. }
    rewrite decide_False by done.
    unfold is_base_letter in Hb. rewrite Hb.
    rewrite IH by done. by rewrite fmap_cons, <- app_assoc.
Qed.

Lemma read_bases_lines lines : forall sequence rest,
  lines <> [] ->
  Forall (fun l => l <> [] /\ forallb is_base_letter l = true) lines ->
  rest = [] \/ head rest = Some ">"%char ->
  Load.read_bases (flat_map (fun l => l ++ [Load.newline]) lines ++ rest) sequence
  = Some (sequence ++ (toupper <$> concat lines), rest).
Proof.
  induction lines as [|l lines IH]; intros sequence rest Hne Hl Hrest; [done|].
  apply Forall_cons in Hl as [[Hlne Hletters] Hl].
  cbn [flat_map concat]. rewrite <- !app_assoc. cbn [app].
  destruct lines as [|l' lines'].
  - cbn [flat_map concat app]. rewrite app_nil_r. by apply read_bases_last_line.
  - pose proof Hl as Hl'. apply Forall_cons in Hl' as [[Hlne' Hletters'] _].
    rewrite read_bases_inner_line; [|done| |].
    + rewrite IH by done. by rewrite fmap_app, app_assoc.
    + cbn [flat_map]. rewrite <- !app_assoc.
      by apply base_letter_head.
    + cbn [flat_map]. rewrite <- !app_assoc.
      by apply base_letter_head.
Qed.

Lemma renders_start records :
  flat_map (fun r => render (fst r) (snd r)) records = []
  \/ head (flat_map (fun r => render (fst r) (snd r)) records) = Some ">"%char.
Proof. destruct records; [by left|by right]. Qed.

(** One iteration of the loop over the records, on a rendered record. *)
Lemma load_loop_record fuel name lines rest genomes :
  renderable (name, lines) ->
  rest = [] \/ head rest = Some ">"%char ->
  Load.load_loop (S fuel) (render name lines ++ rest) genomes
  = Load.load_loop fuel rest (genomes ++ [genome_of_record (name, lines)]).
Proof.
  intros (Hname & Hnl & Hlines & Hletters) Hrest.
  simpl in Hname, Hnl, Hlines, Hletters.
  set (text := flat_map (fun l => l ++ [Load.newline]) lines).
  assert (Hg : Load.getline (render name lines ++ rest)
               = (">"%char :: name, text ++ rest)).
  { replace (render name lines ++ rest)
      with ((">"%char :: name) ++ Load.newline :: (text ++ rest))
      by (unfold render; simpl; by rewrite <- app_assoc).
    apply getline_line. apply not_elem_of_cons. by split. }
  unfold render in *. fold text in Hg |- *.
  change ((">"%char :: (name ++ Load.newline :: text)) ++ rest)
    with (">"%char :: ((name ++ Load.newline :: text) ++ rest)) in *.
  cbn [Load.load_loop]. rewrite Hg.
  rewrite decide_False by (intros H; by apply H).
  rewrite decide_False by done.
  assert (Hhead : head (text ++ rest) <> Some Load.newline).
  { destruct lines as [|l lines']; [done|].
    apply Forall_cons in Hletters as [[Hlne Hl] _].
    unfold text. cbn [flat_map]. rewrite <- !app_assoc. by apply base_letter_head. }
  rewrite decide_False by done.
  unfold text. rewrite read_bases_lines by done.
  rewrite app_nil_l, decide_False; [reflexivity|].
  destruct lines as [|l lines']; [done|].
  apply Forall_cons in Hletters as [[Hlne _] _]. by destruct l.
Qed.

Lemma load_loop_renders records : forall fuel genomes,
  Forall renderable records ->
  (length (flat_map (fun r => render (fst r) (snd r)) records) < fuel)%nat ->
  Load.load_loop fuel (flat_map (fun r => render (fst r) (snd r)) records) genomes
  = (true, genomes ++ (genome_of_record <$> records)).
Proof.
  induction records as [|[name lines] records IH]; intros fuel genomes Hr Hfuel.
  - destruct fuel; [lia|]. simpl. by rewrite app_nil_r.
  - apply Forall_cons in Hr as [Hrecord Hr].
    cbn [flat_map fst snd] in *.
    destruct fuel as [|fuel]; [lia|].
    rewrite load_loop_record by (try done; apply renders_start).
    rewrite IH.
    + by rewrite fmap_cons, <- app_assoc.
    + done.
    + assert (1 <= length (render name lines))%nat by (unfold render; simpl; lia).
      rewrite length_app in Hfuel. lia.
Qed.

(** X4: a genome file written record by record, each as a name line and one
    or more non-empty lines of base letters in either case, loads
    successfully into exactly those genomes, in order, each with the bases
    of its lines joined and in uppercase. *)
Theorem load_rendered_records (records : list (str * list str)) :
  Forall renderable records ->
  Load.load (flat_map (fun r => render (fst r) (snd r)) records)
  = (true, genome_of_record <$> records).
Proof.
  intros Hr. unfold Load.load. rewrite load_loop_renders by (done || lia). reflexivity.
Qed.

Lemma load_rendered_records_witness :
  Load.load (render $"a" [$"acgt"; $"GG"] ++ render $"b" [$"NN"])
  = (true, [Genome "a" $"ACGTGG"; Genome "b" $"NN"]).
Proof.
  apply (load_rendered_records [($"a", [$"acgt"; $"GG"]); ($"b", [$"NN"])]).
  repeat constructor; simpl; try discriminate;
    apply (bool_decide_unpack _); reflexivity.
Defined.

(** X5: a stream that does not begin with ['>'] is accepted only when it is
    empty; otherwise [load] returns [false] and no genome. *)
Theorem load_needs_leading_marker (genomeSource : str) :
  head genomeSource <> Some ">"%char ->
  Load.load genomeSource = (bool_decide (genomeSource = []), []).
Proof.
  intros Hhead. destruct genomeSource as [|c source]; [reflexivity|].
  unfold Load.load. cbn [Load.load_loop length Load.getline].
  case_decide; [reflexivity|].
  destruct (Load.getline source) as [line rest].
  rewrite decide_True; [reflexivity|]. simpl in Hhead. congruence.
Qed.

Lemma load_needs_leading_marker_witness :
  Load.load $"ACGT" = (false, []).
Proof.
  apply (load_needs_leading_marker $"ACGT"). discriminate.
Defined.

(** ** GenomeMatcher: the index of a library *)

Lemma build_app k gs gs' :
  build k (gs ++ gs') = foldl (fun m g => addGenome g m) (build k gs) gs'.
Proof. unfold build. apply foldl_app. Qed.

Lemma build_keeps_seeds k gs gs' key exactOnly v :
  v ∈ Trie.find key exactOnly (m_sequencedDNA (build k gs)) ->
  v ∈ Trie.find key exactOnly (m_sequencedDNA (build k (gs ++ gs'))).
Proof.
  intros Hv. induction gs' as [|g gs' IH] using rev_ind.
  - by rewrite app_nil_r.
  - rewrite app_assoc, build_snoc, addGenome_trie. by apply addGenome_loop_keeps.
Qed.



Lemma build_indexes_window k gs1 g gs2 pos :
  1 <= k -> forallb is_base (m_sequence g) = true ->
  0 <= pos <= Genome.length g - k ->
  (size gs1 + 1, pos)
  ∈ Trie.find (segment (m_sequence g) pos k) true
      (m_sequencedDNA (build k (gs1 ++ g :: gs2))).
Proof.
  intros Hk Hb Hpos.
  change (g :: gs2) with ([g] ++ gs2). rewrite app_assoc.
  apply build_keeps_seeds. rewrite build_snoc, addGenome_trie, build_library.
  rewrite build_minSearchLength.
  replace (size gs1 + 1) with (size (gs1 ++ [g]))
    by (unfold size; rewrite length_app; simpl; lia).
  apply addGenome_loop_complete; try lia.
  - unfold Genome.length, size. lia.
  - intros p. by apply bases_never_spell_error.
Qed.

Lemma build_indexes_genome k gs gid g pos :
  1 <= k -> forallb is_base (m_sequence g) = true ->
  1 <= gid -> gs !! Z.to_nat (gid - 1) = Some g ->
  0 <= pos <= Genome.length g - k ->
  (gid, pos) ∈ Trie.find (segment (m_sequence g) pos k) true (m_sequencedDNA (build k gs)).
Proof.
  intros Hk Hb Hgid Hg Hpos.
  pose proof (take_drop_middle _ _ _ Hg) as Hsplit.
  pose proof (build_indexes_window k (take (Z.to_nat (gid - 1)) gs) g
                (drop (S (Z.to_nat (gid - 1))) gs) pos Hk Hb Hpos) as Hin.
  rewrite Hsplit in Hin.
  replace (size (take (Z.to_nat (gid - 1)) gs) + 1) with gid in Hin; [done|].
  unfold size. rewrite length_take. apply lookup_lt_Some in Hg. lia.
Qed.

(** X12: the exact lookup of a key in the index of a library of base-letter
    genomes, built with [k >= 1], returns the seed [(gid, pos)] if and only
    if the library has a genome number [gid] (counting from 1) whose [k]
    bases from [pos] are the key; so a genome shorter than [k] has no
    seed. *)
Theorem index_holds_exactly_the_windows (k : Z) (gs : list GenomeImpl) (key : str)
    (gid pos : Z) :
  1 <= k ->
  Forall (fun g => forallb is_base (m_sequence g) = true) gs ->
  (gid, pos) ∈ Trie.find key true (m_sequencedDNA (build k gs))
  <-> 1 <= gid
      /\ exists g, gs !! Z.to_nat (gid - 1) = Some g
           /\ Genome.extract g pos k = Some key.
Proof.
  intros Hk Hgs. split.
  - intros Hin. rewrite find_exact_values in Hin.
    destruct (proj2 (seeds_in_library_build k gs) _ _ _ Hin) as ([Hgid _] & g & Hg & He).
    split; [done|]. exists g. unfold genome_of in Hg.
    rewrite build_library in Hg. rewrite build_minSearchLength in He. done.
  - intros (Hgid & g & Hg & He).
    apply extract_Some in He as [[Hp Hfit] ->]; [|lia].
    assert (Hb : forallb is_base (m_sequence g) = true).
    { rewrite Forall_forall in Hgs. apply Hgs. by apply list_elem_of_lookup_2 in Hg. }
    apply build_indexes_genome; try done. lia.
Qed.

Lemma index_holds_exactly_the_windows_witness :
  (2, 1) ∈ Trie.find $"CGT" true
             (m_sequencedDNA (build 3 [Genome "A" $"TTTT"; Genome "B" $"ACGT"]))
  <-> 1 <= 2
      /\ exists g, [Genome "A" $"TTTT"; Genome "B" $"ACGT"] !! Z.to_nat (2 - 1) = Some g
           /\ Genome.extract g 1 3 = Some $"CGT".
Proof.
  apply (index_holds_exactly_the_windows 3 [Genome "A" $"TTTT"; Genome "B" $"ACGT"]).
  - lia.
  - repeat constructor.
Defined.

(** ** GenomeMatcher: exact occurrences are found *)

Lemma extract_or_error_size g position n :
  0 <= n ->
  Genome.extract_or_error g position n <> Genome.error ->
  size (Genome.extract_or_error g position n) = n.
Proof.
  intros Hn. unfold Genome.extract_or_error.
  destruct (Genome.extract g position n) as [s|] eqn:He; [|done]. intros _.
  apply extract_Some in He as [[Hp Hfit] ->]; [|done].
  apply size_segment; unfold Genome.length in *; lia.
Qed.

(** The extension loop never returns more than the length of the
    fragment. *)
Lemma grow_le_fragment fuel : forall genome fragment currentPosition snipped n,
  0 <= n <= size fragment ->
  grow fuel genome fragment currentPosition snipped n <= size fragment.
Proof.
  induction fuel as [|fuel IH]; intros genome fragment pos snipped n Hn; [simpl; lia|].
  cbn [grow]. rewrite size_t_of_int_nonneg by lia.
  destruct (Z.leb_spec n (size fragment)); [|lia].
  case_decide as Herr; [lia|].
  rewrite (extract_or_error_size _ _ _ (proj1 Hn) Herr).
  destruct (Z.eqb_spec n (size fragment)).
  - repeat case_match; lia.
  - repeat case_match; try lia; apply IH; lia.
Qed.

Lemma grow_full_match genome fragment pos fuel : forall snipped n,
  forallb is_base (m_sequence genome) = true ->
  Genome.extract genome pos (size fragment) = Some fragment ->
  1 <= n <= size fragment -> size fragment - n < Z.of_nat fuel ->
  grow fuel genome fragment pos snipped n = size fragment.
Proof.
  intros snipped n Hb He. revert snipped n.
  apply extract_Some in He as [[Hp Hfit] HF]; [|apply size_nonneg].
  induction fuel as [|fuel IH]; intros snipped n Hn Hfuel; [lia|].
  cbn [grow]. rewrite size_t_of_int_nonneg by lia.
  destruct (Z.leb_spec n (size fragment)); [|lia].
  unfold Genome.extract_or_error.
  rewrite extract_in_range by (unfold in_range; lia).
  rewrite decide_False by (by apply bases_never_spell_error).
  rewrite decide_True.
  - destruct (Z.eqb_spec n (size fragment)); [done|]. apply IH; lia.
  - unfold substr. rewrite Z.sub_0_r, Z.min_l by lia. simpl drop.
    transitivity (take (Z.to_nat n) (segment (m_sequence genome) pos (size fragment)));
      [|by rewrite <- HF].
    unfold segment. rewrite take_take. f_equal. unfold size in *. lia.
Qed.

(** X14: an exact search finds every exact occurrence in full.  When the
    fragment is read in full at some position of a library genome (of a
    library of base-letter genomes indexed with [k >= 1], and with
    [k <= minimumLength <= fragment.size()]), the call returns [true] and
    reports, under that genome's name, a match whose length is the whole
    length of the fragment. *)
Theorem exact_occurrence_is_found (k : Z) (gs : list GenomeImpl) (fragment : str)
    (minimumLength gid pos : Z) (g : GenomeImpl) (matches0 : list DNAMatch.t) :
  1 <= k -> k <= minimumLength <= size fragment ->
  Forall (fun g => forallb is_base (m_sequence g) = true) gs ->
  1 <= gid -> gs !! Z.to_nat (gid - 1) = Some g ->
  Genome.extract g pos (size fragment) = Some fragment ->
  exists matches d,
    findGenomesWithThisDNA (build k gs) fragment minimumLength true matches0
    = (true, matches)
    /\ d ∈ matches
    /\ DNAMatch.genomeName d = Genome.name g
    /\ DNAMatch.length d = size fragment.
Proof.
  intros Hk HL Hgs Hgid Hg He.
  assert (Hb : forallb is_base (m_sequence g) = true).
  { rewrite Forall_forall in Hgs. apply Hgs. by apply list_elem_of_lookup_2 in Hg. }
  pose proof He as He'. apply extract_Some in He' as [[Hp Hfit] HF]; [|apply size_nonneg].
  set (m := build k gs).
  assert (Hgen : genome_of m gid = Some g)
    by (unfold genome_of, m; by rewrite build_library).
  (* the occurrence is a candidate *)
  assert (Hadm : candidate_match m fragment minimumLength true gid
                   (DNAMatch.mk (Genome.name g) (size fragment) pos)).
  { exists pos. split_and!.
    - unfold seeds, m. rewrite build_minSearchLength, size_t_of_int_nonneg by lia.
      unfold substr. rewrite Z.sub_0_r, Z.min_l by lia.
      change (drop (Z.to_nat 0) fragment) with fragment.
      replace (take (Z.to_nat k) fragment) with (segment (m_sequence g) pos k).
      + apply build_indexes_genome; try done. lia.
      + transitivity (take (Z.to_nat k) (segment (m_sequence g) pos (size fragment)));
          [|by rewrite <- HF].
        unfold segment. rewrite take_take. f_equal. unfold size in *. lia.
    - unfold candidate_of. simpl. rewrite Hgen. simpl. do 2 f_equal.
      unfold m. rewrite build_minSearchLength. unfold actualLength_of.
      apply grow_full_match; try done; [lia|unfold size; lia].
    - simpl. lia. }
  (* the search keeps a match of that genome that is at least as long *)
  rewrite findGenomesWithThisDNA_searches
    by (unfold m; rewrite ?build_minSearchLength, ?size_t_of_int_nonneg; lia).
  fold m. cbv zeta.
  destruct (best_matches_best m fragment minimumLength true (seeds m fragment true) gid)
    as [Hsound Hmax].
  destruct (Hmax _ Hadm) as (d & Hd & Hle). simpl in Hle.
  assert (Hin : d ∈ (map_to_list (best_matches m fragment minimumLength true
                                    (seeds m fragment true))).*2).
  { apply list_elem_of_fmap. exists (gid, d). split; [done|].
    by apply elem_of_map_to_list. }
  eexists _, d. split_and!; [|exact Hin| |].
  - destruct ((map_to_list _).*2) as [|x l] eqn:Hlist; [by apply not_elem_of_nil in Hin|].
    reflexivity.
  - destruct (Hsound d Hd) as (pos' & _ & Hc & _). unfold candidate_of in Hc.
    simpl in Hc. rewrite Hgen in Hc. simpl in Hc. by injection Hc as <-.
  - destruct (Hsound d Hd) as (pos' & _ & Hc & _). unfold candidate_of in Hc.
    simpl in Hc. rewrite Hgen in Hc. simpl in Hc. injection Hc as <-. simpl in *.
    pose proof (grow_le_fragment (S (length fragment)) g fragment pos' true
                  (m_minSearchLength m)) as Hub.
    unfold actualLength_of in *. unfold m in Hub, Hle |- *.
    rewrite build_minSearchLength in *. specialize (Hub ltac:(lia)). lia.
Qed.

Lemma exact_occurrence_is_found_witness :
  exists matches d,
    findGenomesWithThisDNA (build 3 [Genome "A" $"TTTT"; Genome "B" $"GACGTA"])
      $"ACGT" 3 true [] = (true, matches)
    /\ d ∈ matches
    /\ DNAMatch.genomeName d = Genome.name (Genome "B" $"GACGTA")
    /\ DNAMatch.length d = size $"ACGT".
Proof.
  apply (exact_occurrence_is_found 3 [Genome "A" $"TTTT"; Genome "B" $"GACGTA"]
           $"ACGT" 3 2 1 (Genome "B" $"GACGTA") []).
  - lia.
  - vm_compute. split; discriminate.
  - repeat constructor.
  - lia.
  - reflexivity.
  - reflexivity.
Defined.

(** ** GenomeMatcher: further properties of the two queries *)

Lemma reported_match_backed_up_to_one_base_witness :
  exists gid g,
    genome_of (build 4 [Genome "A" $"ACGTACGT"]) gid = Some g
    /\ DNAMatch.genomeName (DNAMatch.mk "A" 8 0) = Genome.name g
    /\ 6 <= DNAMatch.length (DNAMatch.mk "A" 8 0)
    /\ (backed_by g $"ACGTTCGT" false (DNAMatch.position (DNAMatch.mk "A" 8 0))
          (DNAMatch.length (DNAMatch.mk "A" 8 0))
        \/ (DNAMatch.position (DNAMatch.mk "A" 8 0) + DNAMatch.length (DNAMatch.mk "A" 8 0)
            = Genome.length g + 1
            /\ backed_by g $"ACGTTCGT" false (DNAMatch.position (DNAMatch.mk "A" 8 0))
                 (DNAMatch.length (DNAMatch.mk "A" 8 0) - 1))).
Proof.
  apply (reported_match_backed_up_to_one_base 4 [Genome "A" $"ACGTACGT"] $"ACGTTCGT"
           6 false [] [DNAMatch.mk "A" 8 0]).
  - lia.
  - repeat constructor.
  - vm_compute. reflexivity.
  - by apply list_elem_of_singleton.
Defined.

(** X15: when the genomes of the library have pairwise distinct names, a
    successful search reports every genome name at most once. *)
Theorem distinct_names_are_reported_once (k : Z) (gs : list GenomeImpl) (fragment : str)
    (minimumLength : Z) (exactOnly : bool) (matches0 matches : list DNAMatch.t) :
  NoDup (Genome.name <$> gs) ->
  findGenomesWithThisDNA (build k gs) fragment minimumLength exactOnly matches0
  = (true, matches) ->
  NoDup (DNAMatch.genomeName <$> matches).
Proof.
  intros Hnames Hcall.
  destruct (findGenomesWithThisDNA_true_tests _ _ _ _ _ _ Hcall) as [H1 H2].
  pose proof (findGenomesWithThisDNA_names_NoDup (build k gs)
                (seeds_in_library_build k gs)
                ltac:(by rewrite build_library) fragment minimumLength exactOnly) as Hnd.
  rewrite findGenomesWithThisDNA_searches in Hnd, Hcall by done.
  simpl in Hnd, Hcall. by injection Hcall as _ <-.
Qed.

Lemma distinct_names_are_reported_once_witness :
  NoDup (DNAMatch.genomeName <$> [DNAMatch.mk "Y" 3 4; DNAMatch.mk "X" 3 0]).
Proof.
  apply (distinct_names_are_reported_once 3 [Genome "X" $"AAAA"; Genome "Y" $"CCCCAAAA"]
           $"AAA" 3 true []).
  - apply (bool_decide_unpack _). vm_compute. reflexivity.
  - vm_compute. reflexivity.
Defined.

Lemma length_related library gm numSequences threshold :
  length (related library gm numSequences threshold)
  = length (filter (fun g => (threshold < percent gm (Genome.name g) numSequences)%Qc)
              library).
Proof.
  induction library as [|g lib IH]; [done|].
  simpl. rewrite filter_cons, length_app, IH. by destruct (decide _).
Qed.

(** X16: when [findRelatedGenomes] passes its entry test and the query has at
    least one whole window, the flag it returns tells whether [results] is
    non-empty, and [results] holds exactly one entry for each genome of the
    library whose percentage, the double [(count / (double) S) * 100] of
    the count of its name and the number [S] of windows, exceeds the
    threshold: its name with that percentage, and nothing else.  It is
    the rounded value that is compared with the threshold. *)
Theorem related_genomes_are_those_above_threshold (m : GenomeMatcherImpl)
    (query : GenomeImpl) (fragmentMatchLength : Z) (exactOnly : bool) (threshold : Qc)
    (results0 results : list GenomeMatch.t) (ok : bool) :
  m_minSearchLength m <= fragmentMatchLength ->
  Genome.length query `quot` fragmentMatchLength <> 0 ->
  findRelatedGenomes m query fragmentMatchLength exactOnly threshold results0
  = Some (ok, results) ->
  ok = bool_decide (results <> [])
  /\ length results
     = length (filter (fun g =>
         (threshold
          < double_mul
              (double_div
                 (Qc_of_Z (window_hits m query fragmentMatchLength exactOnly
                             (Genome.name g)))
                 (Qc_of_Z (Genome.length query `quot` fragmentMatchLength)))
              (Qc_of_Z 100))%Qc)
         (m_genomeLibrary m))
  /\ forall r, r ∈ results
       <-> exists g, g ∈ m_genomeLibrary m
             /\ GenomeMatch.genomeName r = Genome.name g
             /\ GenomeMatch.percentMatch r
                = double_mul
                    (double_div
                       (Qc_of_Z (window_hits m query fragmentMatchLength exactOnly
                                   (Genome.name g)))
                       (Qc_of_Z (Genome.length query `quot` fragmentMatchLength)))
                    (Qc_of_Z 100)
             /\ (threshold < GenomeMatch.percentMatch r)%Qc.
Proof.
  intros Hk HS Hcall.
  set (S := Genome.length query `quot` fragmentMatchLength) in *.
  set (gm := count_windows (Z.to_nat S) m query fragmentMatchLength exactOnly 0 ∅).
  set (listed := related (m_genomeLibrary m) gm S threshold).
  assert (Hm : fragmentMatchLength <> 0).
  { intros ->. apply HS. unfold S. apply Z.quot_0_r_ext. done. }
  assert (Hres : results ≡ₚ listed /\ ok = bool_decide (results <> [])).
  { unfold findRelatedGenomes in Hcall. fold S in Hcall. fold gm in Hcall.
    fold listed in Hcall.
    destruct (Z.ltb_spec fragmentMatchLength (m_minSearchLength m)); [lia|].
    destruct (Z.eqb_spec fragmentMatchLength 0); [done|].
    destruct (Z.eqb_spec S 0); [done|].
    destruct listed as [|r0 listed'] eqn:Hl.
    - simpl in Hcall. injection Hcall as <- <-. done.
    - change (size (r0 :: listed') =? 0) with false in Hcall. injection Hcall as <- <-.
      split; [apply merge_sort_Permutation|].
      symmetry. apply bool_decide_eq_true. intros Hnil.
      pose proof (merge_sort_Permutation genomeMatchBefore (r0 :: listed')) as Hp.
      rewrite Hnil in Hp. by apply Permutation_nil_cons in Hp. }
  destruct Hres as [Hperm Hok]. split_and!; [done| |].
  - rewrite Hperm. unfold listed. apply length_related.
  - intros r. rewrite Hperm. unfold listed. rewrite elem_of_related. split.
    + intros (g & Hg & Hlt & ->). exists g. by split_and!.
    + intros (g & Hg & Hn & Hp & Hlt). exists g. split_and!; [done| |].
      * rewrite Hp in Hlt. exact Hlt.
      * destruct r as [rn rp]. simpl in *. subst rn. rewrite Hp. reflexivity.
Qed.

Lemma related_genomes_are_those_above_threshold_witness :
  true = bool_decide
           ([GenomeMatch.mk "P"
               (double_mul (double_div (Qc_of_Z 11) (Qc_of_Z 20)) (Qc_of_Z 100))] <> []).
Proof.
  apply (related_genomes_are_those_above_threshold
           (build 1 [Genome "P" $"A"]) (Genome "q" $"AAAAAAAAAAACCCCCCCCC") 1 true
           (Qc_of_Z 55) []
           [GenomeMatch.mk "P"
              (double_mul (double_div (Qc_of_Z 11) (Qc_of_Z 20)) (Qc_of_Z 100))] true).
  - vm_compute. discriminate.
  - vm_compute. discriminate.
  - vm_compute. reflexivity.
Defined.

(** X17: for a library of pairwise distinct names and a query of base
    letters cut into windows of [m >= 1] bases, the percentage reported for
    a genome is computed from the number of the query's windows whose
    search reports that genome's name: it is the double
    [(n / (double) S) * 100] for that number [n] and the number [S] of
    windows. *)
Theorem percent_is_share_of_windows (k : Z) (gs : list GenomeImpl) (query : GenomeImpl)
    (fragmentMatchLength : Z) (exactOnly : bool) (threshold : Qc)
    (results0 results : list GenomeMatch.t) (r : GenomeMatch.t) :
  NoDup (Genome.name <$> gs) ->
  forallb is_base (m_sequence query) = true ->
  1 <= fragmentMatchLength ->
  findRelatedGenomes (build k gs) query fragmentMatchLength exactOnly threshold results0
  = Some (true, results) ->
  r ∈ results ->
  GenomeMatch.percentMatch r
  = double_mul
      (double_div
         (Qc_of_Z (Z.of_nat (length
            (filter (found_in (build k gs) fragmentMatchLength exactOnly
                       (GenomeMatch.genomeName r))
               (window query fragmentMatchLength
                  <$> seqZ 0 (Genome.length query `quot` fragmentMatchLength))))))
         (Qc_of_Z (Genome.length query `quot` fragmentMatchLength)))
      (Qc_of_Z 100).
Proof.
  intros Hnames Hq Hm Hcall Hr.
  apply findRelatedGenomes_true in Hcall. rewrite Hcall in Hr.
  apply elem_of_related in Hr as (cur & _ & _ & ->). simpl.
  rewrite <- (window_hits_counts (build k gs) (seeds_in_library_build k gs)
                ltac:(by rewrite build_library) query fragmentMatchLength exactOnly
                (Genome.name cur) Hq Hm).
  reflexivity.
Qed.

Lemma percent_is_share_of_windows_witness :
  double_mul (double_div (Qc_of_Z 2) (Qc_of_Z 3)) (Qc_of_Z 100)
  = double_mul
      (double_div
         (Qc_of_Z (Z.of_nat (length
            (filter (found_in (build 3 [Genome "P" $"AAACCCGGG"; Genome "Q" $"AAATTTGGG"])
                       3 true "Q")
               (window (Genome "q" $"AAACCCGGG") 3 <$> seqZ 0 3)))))
         (Qc_of_Z 3))
      (Qc_of_Z 100).
Proof.
  apply (percent_is_share_of_windows 3 [Genome "P" $"AAACCCGGG"; Genome "Q" $"AAATTTGGG"]
           (Genome "q" $"AAACCCGGG") 3 true (Qc_of_Z 50) []
           (merge_sort genomeMatchBefore
              (related [Genome "P" $"AAACCCGGG"; Genome "Q" $"AAATTTGGG"]
                 (count_windows 3
                    (build 3 [Genome "P" $"AAACCCGGG"; Genome "Q" $"AAATTTGGG"])
                    (Genome "q" $"AAACCCGGG") 3 true 0 ∅) 3 (Qc_of_Z 50)))
           (GenomeMatch.mk "Q"
              (double_mul (double_div (Qc_of_Z 2) (Qc_of_Z 3)) (Qc_of_Z 100)))).
  - apply (bool_decide_unpack _). vm_compute. reflexivity.
  - reflexivity.
  - lia.
  - reflexivity.
  - rewrite merge_sort_Permutation. apply elem_of_related.
    exists (Genome "Q" $"AAATTTGGG"). split_and!; [|reflexivity|reflexivity].
    right. left.
Defined.

(** ** GenomeMatcher: the order of the related genomes *)

Lemma ascii_compare_lt_trans a b c :
  Ascii.compare a b = Lt -> Ascii.compare b c = Lt -> Ascii.compare a c = Lt.
Proof.
  unfold Ascii.compare. rewrite !N.compare_lt_iff. lia.
Qed.

Lemma string_compare_refl s : String.compare s s = Eq.
Proof.
  induction s as [|a s IH]; [reflexivity|]. simpl.
  assert (Ascii.compare a a = Eq) as -> by (unfold Ascii.compare; apply N.compare_refl).
  done.
Qed.

Lemma string_compare_lt_trans s1 : forall s2 s3,
  String.compare s1 s2 = Lt -> String.compare s2 s3 = Lt -> String.compare s1 s3 = Lt.
Proof.
  induction s1 as [|a s1 IH]; intros [|b s2] [|c s3]; simpl; try done.
  destruct (Ascii.compare a b) eqn:Hab; [|  |done];
    destruct (Ascii.compare b c) eqn:Hbc; try done.
  - apply Ascii.compare_eq_iff in Hab as ->, Hbc as ->.
    assert (Ascii.compare c c = Eq) as -> by (unfold Ascii.compare; apply N.compare_refl).
    apply IH.
  - apply Ascii.compare_eq_iff in Hab as ->. by rewrite Hbc.
  - apply Ascii.compare_eq_iff in Hbc as <-. by rewrite Hab.
  - by rewrite (ascii_compare_lt_trans a b c).
Qed.

Lemma string_ltb_trichotomy s1 s2 :
  s1 <> s2 -> String.ltb s1 s2 = true \/ String.ltb s2 s1 = true.
Proof.
  intros Hne. unfold String.ltb. rewrite (String.compare_antisym s2 s1).
  destruct (String.compare s1 s2) eqn:Hc; simpl; auto.
  by apply String.compare_eq_iff in Hc.
Qed.

Lemma string_ltb_asym s1 s2 : String.ltb s1 s2 = true -> String.ltb s2 s1 = false.
Proof.
  unfold String.ltb. rewrite (String.compare_antisym s2 s1).
  by destruct (String.compare s1 s2).
Qed.

Lemma string_ltb_trans s1 s2 s3 :
  String.ltb s1 s2 = true -> String.ltb s2 s3 = true -> String.ltb s1 s3 = true.
Proof.
  unfold String.ltb.
  destruct (String.compare s1 s2) eqn:H12; try done.
  destruct (String.compare s2 s3) eqn:H23; try done.
  by rewrite (string_compare_lt_trans s1 s2 s3).
Qed.

Lemma genomeMatchCompare_true a b :
  genomeMatchCompare a b = true
  <-> (GenomeMatch.percentMatch b < GenomeMatch.percentMatch a)%Qc
      \/ (GenomeMatch.percentMatch a = GenomeMatch.percentMatch b
          /\ String.ltb (GenomeMatch.genomeName a) (GenomeMatch.genomeName b) = true).
Proof.
  unfold genomeMatchCompare. destruct a as [na pa], b as [nb pb]. simpl.
  destruct (decide (pb < pa)%Qc) as [Hlt|Hnlt]; [by split; auto|].
  destruct (decide (pa < pb)%Qc) as [Hgt|Hngt].
  - split; [done|]. intros [?|[-> _]]; [done|]. by apply Qclt_not_eq in Hgt.
  - assert (pa = pb) by (apply Qcle_antisym; by apply Qcnot_lt_le).
    split; [by right|]. by intros [?|[_ ?]].
Qed.

Lemma genomeMatchCompare_irrefl a : genomeMatchCompare a a = false.
Proof.
  apply not_true_is_false. rewrite genomeMatchCompare_true.
  intros [Hlt|[_ Hlt]].
  - by apply Qclt_not_eq in Hlt.
  - unfold String.ltb in Hlt. by rewrite string_compare_refl in Hlt.
Qed.

Lemma genomeMatchCompare_asym a b :
  genomeMatchCompare a b = true -> genomeMatchCompare b a = false.
Proof.
  intros Hab. apply not_true_is_false. revert Hab.
  rewrite !genomeMatchCompare_true.
  intros [H1|[He1 Hn1]] [H2|[He2 Hn2]].
  - by apply (Qclt_not_le _ _ H1), Qclt_le_weak.
  - rewrite He2 in H1. by apply Qclt_not_eq in H1.
  - rewrite He1 in H2. by apply Qclt_not_eq in H2.
  - apply string_ltb_asym in Hn1. congruence.
Qed.

Lemma genomeMatchCompare_trans a b c :
  genomeMatchCompare a b = true -> genomeMatchCompare b c = true ->
  genomeMatchCompare a c = true.
Proof.
  rewrite !genomeMatchCompare_true.
  intros [H1|[He1 Hn1]] [H2|[He2 Hn2]].
  - left. by apply (Qclt_trans _ _ _ H2 H1).
  - left. by rewrite <- He2.
  - left. by rewrite He1.
  - right. split; [congruence|]. by apply (string_ltb_trans _ _ _ Hn1 Hn2).
Qed.

Lemma genomeMatchCompare_total a b :
  genomeMatchCompare a b = false -> genomeMatchCompare b a = false -> a = b.
Proof.
  destruct a as [na pa], b as [nb pb]. intros Hab Hba.
  apply not_true_iff_false in Hab, Hba. rewrite genomeMatchCompare_true in Hab, Hba.
  simpl in *.
  destruct (Qc_dec pa pb) as [[Hlt|Hgt]| ->]; [by destruct Hba; left|by destruct Hab; left|].
  f_equal. destruct (decide (na = nb)) as [|Hne]; [done|].
  destruct (string_ltb_trichotomy na nb Hne); [destruct Hab|destruct Hba]; by right.
Qed.

Lemma genomeMatchCompare_percent a b :
  genomeMatchCompare b a = false ->
  (GenomeMatch.percentMatch b <= GenomeMatch.percentMatch a)%Qc.
Proof.
  intros Hba. apply Qcnot_lt_le. intros Hlt.
  apply not_true_iff_false in Hba. apply Hba, genomeMatchCompare_true. by left.
Qed.

Lemma genomeMatchCompare_not_after_trans a b c :
  genomeMatchCompare b a = false -> genomeMatchCompare c b = false ->
  genomeMatchCompare c a = false.
Proof.
  intros Hba Hcb. destruct (genomeMatchCompare c a) eqn:Hca; [|done].
  destruct (genomeMatchCompare a b) eqn:Hab.
  - by rewrite (genomeMatchCompare_trans c a b Hca Hab) in Hcb.
  - rewrite (genomeMatchCompare_total a b Hab Hba) in Hca. congruence.
Qed.

(** [std::sort] with a comparator that orders any two different elements:
    the merge sort leaves no element after one it is before. *)
Section SortStrict.
Context {A : Type} (R R' : relation A) `{forall x y, Decision (R x y)}.
Hypothesis before_not_after : forall x y, R x y -> R' x y.
Hypothesis not_before_after : forall x y, ~ R x y -> R' y x.

Lemma HdRel_list_merge_strict x l1 l2 :
  HdRel R' x l1 -> HdRel R' x l2 -> HdRel R' x (list_merge R l1 l2).
Proof.
  destruct 1 as [|x1 l1 IH1], 1 as [|x2 l2 IH2];
    rewrite ?list_merge_cons; simpl; repeat case_decide; auto.
Qed.

Lemma Sorted_list_merge_strict l1 l2 :
  Sorted R' l1 -> Sorted R' l2 -> Sorted R' (list_merge R l1 l2).
Proof.
  intros Hl1. revert l2. induction Hl1 as [|x1 l1 ? IH1 Hd1];
    induction 1 as [|x2 l2 ? IH2 Hd2]; rewrite ?list_merge_cons; simpl;
    [constructor|by constructor|by constructor|].
  case_decide as Hx.
  - constructor; [apply IH1; by constructor|].
    apply HdRel_list_merge_strict; [done|]. constructor. by apply before_not_after.
  - constructor; [apply IH2|].
    apply HdRel_list_merge_strict; [|done]. constructor.
    by apply not_before_after.
Qed.

Lemma Sorted_merge_list_to_stack_strict st l :
  merge_stack_Sorted R' st -> Sorted R' l ->
  merge_stack_Sorted R' (merge_list_to_stack R st l).
Proof.
  intros Hst. revert l.
  induction Hst as [|st ? IH|l' st ? ? IH]; intros l Hl; simpl.
  - by repeat constructor.
  - by constructor.
  - constructor. apply IH. by apply Sorted_list_merge_strict.
Qed.

Lemma Sorted_merge_stack_strict st :
  merge_stack_Sorted R' st -> Sorted R' (merge_stack R st).
Proof. induction 1; simpl; auto using Sorted_list_merge_strict. Qed.

Lemma Sorted_merge_sort_aux_strict st l :
  merge_stack_Sorted R' st -> Sorted R' (merge_sort_aux R st l).
Proof.
  revert st. induction l as [|x l IH]; simpl; intros st Hst.
  - by apply Sorted_merge_stack_strict.
  - apply IH, Sorted_merge_list_to_stack_strict; [done|]. by repeat constructor.
Qed.

Lemma Sorted_merge_sort_strict l : Sorted R' (merge_sort R l).
Proof. apply Sorted_merge_sort_aux_strict. constructor. Qed.

End SortStrict.

(** X18: [genomeMatchCompare] is a strict total order on the results: no
    result is before itself, of two different results exactly one is before
    the other, and the relation is transitive.  A result with a greater
    percentage is before one with a smaller, whatever the names. *)
Theorem genomeMatchCompare_strict_total_order :
  (forall a, genomeMatchCompare a a = false)
  /\ (forall a b, genomeMatchCompare a b = true -> genomeMatchCompare b a = false)
  /\ (forall a b c, genomeMatchCompare a b = true -> genomeMatchCompare b c = true ->
                    genomeMatchCompare a c = true)
  /\ (forall a b, a <> b -> genomeMatchCompare a b = true \/ genomeMatchCompare b a = true)
  /\ (forall a b, (GenomeMatch.percentMatch b < GenomeMatch.percentMatch a)%Qc ->
                  genomeMatchCompare a b = true).
Proof.
  split_and!.
  - apply genomeMatchCompare_irrefl.
  - apply genomeMatchCompare_asym.
  - apply genomeMatchCompare_trans.
  - intros a b Hne.
    destruct (genomeMatchCompare a b) eqn:Hab; [by left|].
    destruct (genomeMatchCompare b a) eqn:Hba; [by right|].
    by destruct Hne; apply genomeMatchCompare_total.
  - intros a b Hlt. apply genomeMatchCompare_true. by left.
Qed.

(** X19: the results of a successful [findRelatedGenomes] are in the order of
    [genomeMatchCompare]: no result is before one listed ahead of it, so the
    percentages never increase along the list; and this order is the only
    one a sort by that comparator can give. *)
Theorem related_genomes_are_sorted (g : GenomeMatcherImpl) (query : GenomeImpl)
    (fragmentMatchLength : Z) (exactOnly : bool) (threshold : Qc)
    (results0 results : list GenomeMatch.t) :
  findRelatedGenomes g query fragmentMatchLength exactOnly threshold results0
  = Some (true, results) ->
  (forall (i j : nat) (a b : GenomeMatch.t),
      (i < j)%nat -> results !! i = Some a -> results !! j = Some b ->
      genomeMatchCompare b a = false
      /\ (GenomeMatch.percentMatch b <= GenomeMatch.percentMatch a)%Qc)
  /\ (forall l : list GenomeMatch.t,
        l ≡ₚ results ->
        (forall (i j : nat) (a b : GenomeMatch.t),
            (i < j)%nat -> l !! i = Some a -> l !! j = Some b ->
            genomeMatchCompare b a = false) ->
        l = results).
Proof.
  intros Hcall.
  assert (StronglySorted (fun a b => genomeMatchCompare b a = false) results) as Hs.
  { unfold findRelatedGenomes in Hcall. repeat case_match; simplify_eq.
    apply Sorted.Sorted_StronglySorted.
    - intros a b c. apply genomeMatchCompare_not_after_trans.
    - apply (Sorted_merge_sort_strict genomeMatchBefore).
      + intros a b. apply genomeMatchCompare_asym.
      + intros a b. apply not_true_is_false. }
  assert (forall l : list GenomeMatch.t,
             StronglySorted (fun a b => genomeMatchCompare b a = false) l ->
             forall (i j : nat) (a b : GenomeMatch.t),
               (i < j)%nat -> l !! i = Some a -> l !! j = Some b ->
               genomeMatchCompare b a = false) as Hidx.
  { intros l Hl. induction Hl as [|x l Hl IH Hx]; intros i j a b Hij Hi Hj;
      [by rewrite lookup_nil in Hi|].
    destruct j as [|j]; [lia|]. simpl in Hj. destruct i as [|i].
    - simpl in Hi. simplify_eq. rewrite Forall_forall in Hx.
      apply Hx. apply list_elem_of_lookup. by exists j.
    - simpl in Hi. apply (IH i j); [lia|done|done]. }
  split.
  - intros i j a b Hij Hi Hj. pose proof (Hidx results Hs i j a b Hij Hi Hj) as Hba.
    split; [done|]. by apply genomeMatchCompare_percent.
  - intros l Hp Hl. apply (StronglySorted_unique_strong (fun a b => genomeMatchCompare b a = false)).
    + intros x1 x2 _ _ H1 H2. by apply genomeMatchCompare_total.
    + clear Hp. induction l as [|x l IH]; [constructor|].
      constructor.
      * apply IH. intros i j a b Hij Hi Hj. apply (Hl (S i) (S j)); [lia|done|done].
      * apply Forall_forall. intros y Hy.
        apply list_elem_of_lookup in Hy as [j Hj]. apply (Hl 0%nat (S j)); [lia|done|done].
    + done.
    + done.
Qed.

Lemma related_genomes_are_sorted_witness :
  genomeMatchCompare
    (GenomeMatch.mk "Q" (double_mul (double_div (Qc_of_Z 2) (Qc_of_Z 3)) (Qc_of_Z 100)))
    (GenomeMatch.mk "P" (Qc_of_Z 100)) = false
  /\ (double_mul (double_div (Qc_of_Z 2) (Qc_of_Z 3)) (Qc_of_Z 100) <= Qc_of_Z 100)%Qc.
Proof.
  apply (proj1 (related_genomes_are_sorted
           (build 3 [Genome "Q" $"AAATTTGGG"; Genome "P" $"AAACCCGGG"])
           (Genome "q" $"AAACCCGGG") 3 true (Qc_of_Z 50) []
           [GenomeMatch.mk "P" (Qc_of_Z 100);
            GenomeMatch.mk "Q"
              (double_mul (double_div (Qc_of_Z 2) (Qc_of_Z 3)) (Qc_of_Z 100))]
           ltac:(vm_compute; do 4 f_equal; apply Qc_is_canon; reflexivity))
         0%nat 1%nat).
  - lia.
  - reflexivity.
  - reflexivity.
Defined.
